(** * pybinding core: run-time scalar dispatch, foundation pruning and the
      KPM binding layer

    A shallow embedding of
    - [cppcore/include/numeric/arrayref.hpp] (module [ArrayRef]),
    - [cppcore/src/system/Foundation.cpp]    (module [Foundation]),
    - [cppmodule/src/kpm.cpp]                (module [Kpm]),
    followed by the properties established about them. *)

From stdpp Require Import base decidable option list gmap strings.
From Stdlib Require Import ZArith Lia.

Local Open Scope string_scope.
Local Open Scope list_scope.

(** C++ exceptions: every exception the embedded code raises is a
    [std::runtime_error] carrying a message. *)
Inductive result (A : Type) : Type :=
  | Ok (a : A)
  | Throw (what : string).
Arguments Ok {A} a.
Arguments Throw {A} what.

(* ===================================================================== *)
(** ** numeric/arrayref.hpp *)
(* ===================================================================== *)
Module ArrayRef.

(** [enum class Tag] *)
Inductive Tag : Set :=
  | f32 | cf32 | f64 | cf64 | b | i8 | i16 | i32 | i64 | u8 | u16 | u32 | u64.

#[global] Instance Tag_eq_dec : EqDecision Tag.
Proof. solve_decision. Defined.

(** The C++ scalar types that [detail::get_tag] is specialised for. *)
Inductive Scalar : Set :=
  | float | complex_float | double | complex_double | bool_t
  | int8_t | int16_t | int32_t | int64_t
  | uint8_t | uint16_t | uint32_t | uint64_t.

#[global] Instance Scalar_eq_dec : EqDecision Scalar.
Proof. solve_decision. Defined.

Definition get_tag (scalar_t : Scalar) : Tag :=
  match scalar_t with
  | float => f32
  | complex_float => cf32
  | double => f64
  | complex_double => cf64
  | bool_t => b
  | int8_t => i8
  | int16_t => i16
  | int32_t => i32
  | int64_t => i64
  | uint8_t => u8
  | uint16_t => u16
  | uint32_t => u32
  | uint64_t => u64
  end.

(** [template<bool is_const> struct BasicArrayRef]; the data handle is an
    address, [rows] and [cols] are C++ [int]s. *)
Record BasicArrayRef (is_const : bool) : Set := MkRef {
  tag : Tag;
  is_row_major : bool;
  data : Z;
  rows : Z;
  cols : Z
}.
Arguments MkRef {is_const}.
Arguments tag {is_const}.
Arguments is_row_major {is_const}.
Arguments data {is_const}.
Arguments rows {is_const}.
Arguments cols {is_const}.

Abbreviation ArrayConstRef := (BasicArrayRef true).
Abbreviation ArrayRef := (BasicArrayRef false).

(** A reference limited to the scalar types [Scalar, Scalars...]: the
    template arguments are kept as [First] and [Rest], the base class as
    [base]. *)
Record Variant (is_const : bool) : Set := MkVariant {
  First : Scalar;
  Rest : list Scalar;
  base : BasicArrayRef is_const
}.
Arguments MkVariant {is_const}.
Arguments First {is_const}.
Arguments Rest {is_const}.
Arguments base {is_const}.

(** [using Types = TypeList<Scalar, Scalars...>] *)
Definition Types {c} (v : Variant c) : list Scalar := First v :: Rest v.

(** [std::none_of] *)
Definition none_of {A} (p : A -> bool) (l : list A) : bool :=
  negb (existsb p l).

(** [VariantArrayConstRef(ArrayConstRef const& other)] *)
Definition VariantArrayConstRef (S0 : Scalar) (Scalars : list Scalar)
    (other : ArrayConstRef) : result (Variant true) :=
  let possible_tags := get_tag S0 :: map get_tag Scalars in
  let is_invalid := none_of (fun t => bool_decide (tag other = t)) possible_tags in
  if is_invalid then Throw "Invalid VariantArrayConstRef assignment"
  else Ok (MkVariant S0 Scalars other).

(** [VariantArrayConstRef(ArrayRef const& a)], delegating to the
    constructor above. *)
Definition VariantArrayConstRef_of_mutable (S0 : Scalar) (Scalars : list Scalar)
    (a : ArrayRef) : result (Variant true) :=
  VariantArrayConstRef S0 Scalars
    (MkRef (tag a) (is_row_major a) (data a) (rows a) (cols a)).

(** [VariantArrayRef(ArrayRef const& other)] *)
Definition VariantArrayRef (S0 : Scalar) (Scalars : list Scalar)
    (other : ArrayRef) : result (Variant false) :=
  let possible_tags := get_tag S0 :: map get_tag Scalars in
  let is_invalid := none_of (fun t => bool_decide (tag other = t)) possible_tags in
  if is_invalid then Throw "Invalid VariantArrayRef assignment"
  else Ok (MkVariant S0 Scalars other).

(** Common typedefs *)
Definition RealArrayConstRef := VariantArrayConstRef float [double].
Definition ComplexArrayConstRef :=
  VariantArrayConstRef float [double; complex_float; complex_double].
Definition RealArrayRef := VariantArrayRef float [double].
Definition ComplexArrayRef :=
  VariantArrayRef float [double; complex_float; complex_double].

(** [arrayref(Tag tag, void* data, int size)] *)
Definition arrayref {c} (t : Tag) (p : Z) (size : Z) : BasicArrayRef c :=
  MkRef t true p 1 size.

(** Modelled from the spec: [num::get_real_t] of numeric/traits.hpp, which
    is not among the sources: the real-valued type underlying a scalar
    type (its "real precision"); a real or integral type is its own. *)
Definition get_real_t (s : Scalar) : Scalar :=
  match s with
  | complex_float => float
  | complex_double => double
  | other => other
  end.

(** [detail::IsSamePrecision<TypeList<T1, T2>>::value] *)
Definition IsSamePrecision (p : Scalar * Scalar) : bool :=
  bool_decide (get_real_t (fst p) = get_real_t (snd p)).

(** Modelled from the spec: [tl::Combinations] of detail/typelist.hpp,
    which is not among the sources: the Cartesian product of two type
    lists, as a list of two-element type lists. *)
Definition Combinations (l1 l2 : list Scalar) : list (Scalar * Scalar) :=
  s1 ← l1; s2 ← l2; [(s1, s2)].

(** Modelled from the spec: [tl::Filter] of detail/typelist.hpp, which is
    not among the sources: the members of a type list that satisfy a
    predicate, in their order. *)
Definition Filter {A} (l : list A) (p : A -> bool) : list A :=
  List.filter p l.

(** The dispatch functions are generic in the container templates, in the
    operation and in what the operation returns.  [MakeContainer] is left
    to specialisations by the header, so it is a parameter here.  The
    operation may have effects: it runs on a world [W] and returns the
    world it leaves behind. *)
Section Dispatch.
Context {c1 c2 : bool}.
Context {W Result : Type}.
Variable Container1 : Scalar -> Type.
Variable Container2 : Scalar -> Type.
Variable make1 : forall s, BasicArrayRef c1 -> Container1 s.
Variable make2 : forall s, BasicArrayRef c2 -> Container2 s.

Definition Function1 := forall s, Container1 s -> W -> Result * W.
Definition Function2 :=
  forall s1 s2, Container1 s1 -> Container2 s2 -> W -> Result * W.

(** [detail::try_match]: the [TypeList<>] overload is the [nil] case. *)
Fixpoint try_match (ref : Variant c1) (lambda : Function1)
    (types : list Scalar) (w : W) : result (Result * W) :=
  match types with
  | [] => Throw "A match was not found"
  | S0 :: Tail =>
      if bool_decide (tag (base ref) = get_tag S0)
      then Ok (lambda S0 (make1 S0 (base ref)) w)
      else try_match ref lambda Tail w
  end.

(** [detail::try_match2] *)
Fixpoint try_match2 (ref1 : Variant c1) (ref2 : Variant c2)
    (lambda : Function2) (pairs : list (Scalar * Scalar)) (w : W)
    : result (Result * W) :=
  match pairs with
  | [] => Throw "A match was not found"
  | (Scalar1, Scalar2) :: Tail =>
      if bool_decide (tag (base ref1) = get_tag Scalar1)
         && bool_decide (tag (base ref2) = get_tag Scalar2)
      then Ok (lambda Scalar1 Scalar2 (make1 Scalar1 (base ref1))
                      (make2 Scalar2 (base ref2)) w)
      else try_match2 ref1 ref2 lambda Tail w
  end.

(** [match] *)
Definition match_ (ref : Variant c1) (lambda : Function1) (w : W)
    : result (Result * W) :=
  try_match ref lambda (Types ref) w.

(** [match2] *)
Definition match2 (ref1 : Variant c1) (ref2 : Variant c2)
    (lambda : Function2) (w : W) : result (Result * W) :=
  let List := Combinations (Types ref1) (Types ref2) in
  try_match2 ref1 ref2 lambda List w.

(** [match2sp] *)
Definition match2sp (ref1 : Variant c1) (ref2 : Variant c2)
    (lambda : Function2) (w : W) : result (Result * W) :=
  let List := Combinations (Types ref1) (Types ref2) in
  let FilteredList := Filter List IsSamePrecision in
  try_match2 ref1 ref2 lambda FilteredList w.

(** Instrumentation: the same operation on a world that also counts how
    often the operation has been entered. *)
Definition counting1 (lambda : Function1)
    : forall s, Container1 s -> nat * W -> Result * (nat * W) :=
  fun s x cw => let '(r, w') := lambda s x (snd cw) in (r, (S (fst cw), w')).
End Dispatch.

End ArrayRef.

(* ===================================================================== *)
(** ** system/Foundation.cpp *)
(* ===================================================================== *)
Module Foundation.

(** C++ [int16_t] and [int] values are integers with the wrap-around of
    the conversion back to the narrow type written out. *)
Definition wrap (bits : Z) (z : Z) : Z :=
  ((z + 2 ^ (bits - 1)) mod 2 ^ bits - 2 ^ (bits - 1))%Z.
Definition int16 (z : Z) : Z := wrap 16 z.
Definition int32 (z : Z) : Z := wrap 32 z.
Definition INT_MAX : Z := (2 ^ 31 - 1)%Z.

(** What the code reads of a foundation: the number of sites and the
    validity state of each site, addressed by the flat site index
    [Site::get_idx]. *)
Record Foundation : Set := MkFoundation {
  get_num_sites : nat;
  get_states : list bool
}.

(** [a[i]] on an Eigen array.  The accesses below are in range whenever
    the array has [get_num_sites] entries, which every theorem assumes. *)
Definition at_ {A} `{Inhabited A} (a : list A) (i : nat) : A := a !!! i.

(** [struct HamiltonianIndices] *)
Record HamiltonianIndices : Set := MkIndices {
  indices : list Z;
  num_valid_sites : Z
}.

(** One pass of the body of the loop of the constructor:
    [if (is_valid[i]) indices[i] = num_valid_sites++;] *)
Definition assign_index (is_valid : list bool) (h : HamiltonianIndices)
    (i : nat) : HamiltonianIndices :=
  if at_ is_valid i
  then MkIndices (<[i := num_valid_sites h]> (indices h))
                 (int32 (num_valid_sites h + 1))
  else h.

(** [HamiltonianIndices::HamiltonianIndices(Foundation const&)] *)
Definition HamiltonianIndices_of (foundation : Foundation) : HamiltonianIndices :=
  let init := MkIndices (replicate (get_num_sites foundation) (-1)%Z) 0%Z in
  let is_valid := get_states foundation in
  fold_left (assign_index is_valid) (seq 0 (get_num_sites foundation)) init.

(** The state that [remove_dangling] works on: the validity array of the
    foundation and the local [neighbor_count] array.  The last three fields
    are instrumentation and influence nothing: the number of calls of
    [clear_neighbors] entered so far, how many of them were recursive, and
    the deepest nesting of active calls seen. *)
Record State : Set := MkState {
  is_valid : list bool;
  neighbor_count : list Z;
  calls : nat;
  recursive_calls : nat;
  max_depth : nat
}.

Definition set_valid (st : State) (idx : nat) (v : bool) : State :=
  MkState (<[idx := v]> (is_valid st)) (neighbor_count st)
          (calls st) (recursive_calls st) (max_depth st).

Definition set_count (st : State) (idx : nat) (n : Z) : State :=
  MkState (is_valid st) (<[idx := n]> (neighbor_count st))
          (calls st) (recursive_calls st) (max_depth st).

(** Entering [clear_neighbors] at nesting depth [depth] (1 for a call made
    by [remove_dangling]). *)
Definition enter (st : State) (depth : nat) : State :=
  MkState (is_valid st) (neighbor_count st) (S (calls st))
          (if decide (depth = 1) then recursive_calls st
           else S (recursive_calls st))
          (Nat.max (max_depth st) depth).

(** [for (x : xs) body(x)] over a body that may fail to return. *)
Fixpoint for_each {A S} (body : A -> S -> option S) (xs : list A) (st : S)
    : option S :=
  match xs with
  | [] => Some st
  | x :: xs' =>
      match body x st with
      | Some st' => for_each body xs' st'
      | None => None
      end
  end.

Section Lattice.
(** The lattice and the size of the foundation reach this file only
    through [Site] and [Site::for_each_neighbour] of system/Foundation.hpp,
    which is not among the sources.  They are taken as a parameter: for
    the site with flat index [idx], [hoppings idx] lists the hoppings of
    the site's sublattice in order, each resolved for this site to
    [Some j], the flat index of the neighbor it leads to, or to [None]
    when the neighbor's index is outside the foundation. *)
Variable hoppings : nat -> list (option nat).

(** [detail::count_neighbors] *)
Definition count_neighbors (foundation : Foundation) : list Z :=
  map (fun idx =>
         let num_neighbors := int16 (Z.of_nat (length (hoppings idx))) in
         fold_left (fun num_neighbors hopping =>
                      match hopping with
                      | None => int16 (num_neighbors - 1)
                      | Some _ => num_neighbors
                      end)
                   (hoppings idx) num_neighbors)
      (seq 0 (get_num_sites foundation)).

(** [Site::for_each_neighbour]: the callback runs on the neighbors inside
    the foundation, in the order of the hoppings. *)
Definition for_each_neighbour {S} (idx : nat) (lambda : nat -> S -> option S)
    : S -> option S :=
  for_each lambda (omap id (hoppings idx)).

Variable min_neighbors : Z.

(** The lambda that [clear_neighbors] passes to [for_each_neighbour];
    [recurse] is the recursive call. *)
Definition visit_neighbor (recurse : nat -> State -> option State)
    (neighbor_idx : nat) (st : State) : option State :=
  if negb (at_ (is_valid st) neighbor_idx) then Some st
  else
    let st := set_count st neighbor_idx
                (int16 (at_ (neighbor_count st) neighbor_idx - 1)) in
    if (at_ (neighbor_count st) neighbor_idx <? min_neighbors)%Z then
      recurse neighbor_idx (set_valid st neighbor_idx false)
    else Some st.

(** [detail::clear_neighbors].  The C++ recursion is not structural:
    [fuel] bounds the nesting of calls and [None] means it ran out. *)
Fixpoint clear_neighbors (fuel : nat) (depth : nat) (idx : nat) (st : State)
    : option State :=
  match fuel with
  | O => None
  | S fuel' =>
      let st := enter st depth in
      if (at_ (neighbor_count st) idx =? 0)%Z then Some st
      else
        match for_each_neighbour idx
                (visit_neighbor (clear_neighbors fuel' (S depth))) st with
        | Some st => Some (set_count st idx 0)
        | None => None
        end
  end.

(** [remove_dangling]: the loop over all sites of the foundation. *)
Definition remove_dangling (fuel : nat) (foundation : Foundation)
    : option State :=
  let neighbor_count := count_neighbors foundation in
  for_each (fun idx st =>
              if negb (at_ (is_valid st) idx)
              then clear_neighbors fuel 1 idx st
              else Some st)
           (seq 0 (get_num_sites foundation))
           (MkState (get_states foundation) neighbor_count 0 0 0).
End Lattice.

End Foundation.

(* ===================================================================== *)
(** ** cppmodule/src/kpm.cpp *)
(* ===================================================================== *)
Module Kpm.

(** *** [deferred_ldos] *)

(** Python objects live in a heap and a [py::object] is a reference into
    it.  The engine class [KPM] (KPM.hpp) is not among the sources: its state
    and the two members the binding uses are parameters. *)
Section Binding.
Variables KPM Model ArrayXd Cartesian Real : Type.
Variable calc_ldos :
  KPM -> ArrayXd -> Real -> Cartesian -> string -> ArrayXd * KPM.
Variable set_model : KPM -> Model -> KPM.

(** [Deferred<ArrayXd>{self, compute}] (thread.hpp, not among the sources):
    the object kept alive and the zero-argument unit of work, which runs
    against the heap as it is when it is invoked. *)
Record Deferred : Type := MkDeferred {
  keep_alive : nat;
  compute : gmap nat KPM -> result (ArrayXd * gmap nat KPM)
}.

(** [self.cast<KPM&>()]: pybind11 raises its cast error when [self] is
    not an engine. *)
Definition cast (heap : gmap nat KPM) (self : nat) : result KPM :=
  match heap !! self with
  | Some kpm => Ok kpm
  | None => Throw "Unable to cast Python instance to C++ type"
  end.

(** The bound method [calc_ldos] called on the Python object [self]. *)
Definition py_calc_ldos (self : nat) (energy : ArrayXd) (broadening : Real)
    (position : Cartesian) (sublattice : string) (heap : gmap nat KPM)
    : result (ArrayXd * gmap nat KPM) :=
  match cast heap self with
  | Ok kpm =>
      let '(ldos, kpm') := calc_ldos kpm energy broadening position sublattice in
      Ok (ldos, <[self := kpm']> heap)
  | Throw what => Throw what
  end.

(** The setter of the [model] property called on [self]. *)
Definition py_set_model (self : nat) (model : Model) (heap : gmap nat KPM)
    : result (gmap nat KPM) :=
  match cast heap self with
  | Ok kpm => Ok (<[self := set_model kpm model]> heap)
  | Throw what => Throw what
  end.

(** The lambda bound as [deferred_ldos].  The closure [[=, &kpm]] copies
    [energy], [broadening], [position] and [sublattice]; the engine is
    captured by reference, so the unit of work reads the engine object
    of [self] when it runs. *)
Definition deferred_ldos (self : nat) (energy : ArrayXd) (broadening : Real)
    (position : Cartesian) (sublattice : string) (heap : gmap nat KPM)
    : result Deferred :=
  match cast heap self with
  | Ok _ =>
      Ok (MkDeferred self
            (fun heap' => py_calc_ldos self energy broadening position
                                       sublattice heap'))
  | Throw what => Throw what
  end.
End Binding.

Arguments keep_alive {KPM ArrayXd}.
Arguments compute {KPM ArrayXd}.

(** *** The engine behind the [model] property *)

(** Modelled from the spec: the engine ([KPM::set_model] and the cache of
    optimized Hamiltonians, KPM.hpp and the kpm headers, not among the
    sources), after section 4.6 and the caching policy of section 4.3:
    the bounds are computed lazily on first use and cached, an optimized
    state is built once per seed-index set and reused, and setting the
    matrix drops the cached bounds and every cached state.  The numerical
    routines are parameters. *)
Section Engine.
Variables Matrix Bounds OptimizedState : Type.
Variable estimate : Matrix -> Bounds.
Variable optimize : Matrix -> Bounds -> gset nat -> OptimizedState.

Record Engine : Type := MkEngine {
  matrix : option Matrix;
  bounds : option Bounds;
  cache : gmap (gset nat) OptimizedState;
  num_built : nat
}.

(** The state Unbound. *)
Definition unbound : Engine := MkEngine None None ∅ 0.

(** Set or replace the matrix. *)
Definition set_model (m : Matrix) (e : Engine) : Engine :=
  MkEngine (Some m) None ∅ (num_built e).

(** The bounds of the bound matrix, computed on first use. *)
Definition get_bounds (m : Matrix) (e : Engine) : Bounds * Engine :=
  match bounds e with
  | Some bs => (bs, e)
  | None =>
      let bs := estimate m in
      (bs, MkEngine (matrix e) (Some bs) (cache e) (num_built e))
  end.

(** The optimized state for a seed-index set: served from the cache on
    a hit, built and stored on a miss.  [None] when no matrix is bound. *)
Definition optimized_for (seeds : gset nat) (e : Engine)
    : option OptimizedState * Engine :=
  match matrix e with
  | None => (None, e)
  | Some m =>
      let '(bs, e) := get_bounds m e in
      match cache e !! seeds with
      | Some st => (Some st, e)
      | None =>
          let st := optimize m bs seeds in
          (Some st,
           MkEngine (matrix e) (bounds e) (<[seeds := st]> (cache e))
                    (S (num_built e)))
      end
  end.

(** What a session asks of the engine. *)
Inductive Request : Type :=
  | SetModel (m : Matrix)
  | Compute (seeds : gset nat).

Fixpoint run (rs : list Request) (e : Engine)
    : list (option OptimizedState) * Engine :=
  match rs with
  | [] => ([], e)
  | SetModel m :: rs' => run rs' (set_model m e)
  | Compute seeds :: rs' =>
      let '(out, e') := optimized_for seeds e in
      let '(outs, e'') := run rs' e' in
      (out :: outs, e'')
  end.

(** The same session answered without any cache: every request is
    computed from the matrix bound at that moment. *)
Fixpoint run_uncached (rs : list Request) (m : option Matrix)
    : list (option OptimizedState) :=
  match rs with
  | [] => []
  | SetModel m' :: rs' => run_uncached rs' (Some m')
  | Compute seeds :: rs' =>
      ((fun m => optimize m (estimate m) seeds) <$> m) :: run_uncached rs' m
  end.

(** No cached value of the engine is stale. *)
Definition coherent (e : Engine) : Prop :=
  (forall bs, bounds e = Some bs ->
     exists m, matrix e = Some m /\ bs = estimate m) /\
  (forall seeds st, cache e !! seeds = Some st ->
     exists m, matrix e = Some m /\ st = optimize m (estimate m) seeds).
End Engine.

Arguments MkEngine {Matrix Bounds OptimizedState}.
Arguments matrix {Matrix Bounds OptimizedState}.
Arguments bounds {Matrix Bounds OptimizedState}.
Arguments cache {Matrix Bounds OptimizedState}.
Arguments num_built {Matrix Bounds OptimizedState}.
Arguments unbound {Matrix Bounds OptimizedState}.
Arguments set_model {Matrix Bounds OptimizedState}.
Arguments get_bounds {Matrix Bounds OptimizedState}.
Arguments optimized_for {Matrix Bounds OptimizedState}.
Arguments SetModel {Matrix}.
Arguments Compute {Matrix}.
Arguments run {Matrix Bounds OptimizedState}.
Arguments run_uncached {Matrix Bounds OptimizedState}.
Arguments coherent {Matrix Bounds OptimizedState}.

(** *** [PyOptHam] *)

(** The sparsity structure of a square sparse matrix in compressed row
    form: for every row the column indices of its nonzeros. *)
Definition Sparsity := list (list nat).

(** [Hamiltonian]: a sparse matrix of one of four scalar types. *)
Record Hamiltonian : Set := MkHamiltonian {
  scalar_type : ArrayRef.Scalar;
  structure : Sparsity
}.

Definition rows (h : Hamiltonian) : nat := length (structure h).

(** Modelled from the spec: the reordering of
    [kpm::OptimizedHamiltonian::optimize_for] (the kpm headers are not
    among the sources), after section 4.3: the indices are laid out in the
    order in which a breadth-first walk of the sparsity graph from the seed
    reaches them, and the size recorded for step k is the number of indices
    reachable within k hops. *)
Definition discover (order : list nat) (col : nat) : list nat :=
  if bool_decide (col ∈ order) then order else order ++ [col].

Definition next_shell (m : Sparsity) (order : list nat) : list nat :=
  fold_left (fun acc row => fold_left discover (m !!! row) acc) order order.

Fixpoint reachable_sizes (m : Sparsity) (steps : nat) (order : list nat)
    : list nat :=
  length order ::
  match steps with
  | O => []
  | S k => reachable_sizes m k (next_shell m order)
  end.

(** [kpm::Indices]: the seed row and the target columns. *)
Record Indices : Set := MkIdx {
  idx_row : nat;
  idx_cols : list nat
}.

Record OptimizedHamiltonian : Set := MkOptimized {
  oh_scalar : ArrayRef.Scalar;
  oh_idx : Indices;
  sizes : list nat
}.

Definition optimize_for (scalar_t : ArrayRef.Scalar) (m : Sparsity)
    (idx : Indices) : OptimizedHamiltonian :=
  MkOptimized scalar_t idx (reachable_sizes m (length m) [idx_row idx]).

(** [PyOptHam::MakeOH{i}] applied to the variant of the Hamiltonian: the
    targets are all the rows of the matrix.  (The scaling factors, which
    rescale the values and leave the sparsity structure alone, are left
    out.) *)
Definition MakeOH (i : nat) (h : Hamiltonian) : OptimizedHamiltonian :=
  let indices := seq 0 (rows h) in
  optimize_for (scalar_type h) (structure h) (MkIdx i indices).

(** [PyOptHam::ReturnSizes] *)
Definition ReturnSizes (oh : OptimizedHamiltonian) : list nat := sizes oh.

(** [struct PyOptHam] with its [__init__] and its [sizes] property. *)
Record PyOptHam : Set := MkPyOptHam {
  h : Hamiltonian;
  oh : OptimizedHamiltonian
}.

Definition PyOptHam_init (h : Hamiltonian) (index : nat) : PyOptHam :=
  MkPyOptHam h (MakeOH index h).

Definition PyOptHam_sizes (self : PyOptHam) : list nat := ReturnSizes (oh self).

(** A square matrix: every column index is a row index. *)
Definition square (m : Sparsity) : Prop :=
  forall row col, row ∈ m -> col ∈ row -> col < length m.

End Kpm.

(* ===================================================================== *)
(** * Vocabulary of the specifications *)
(* ===================================================================== *)
Section DispatchVocabulary.
Import ArrayRef.

(** A candidate type (pair) is hit when its tag(s) are the actual ones. *)
Definition hits {c1} (ref : Variant c1) (s : Scalar) : Prop :=
  tag (base ref) = get_tag s.
Definition hits2 {c1 c2} (ref1 : Variant c1) (ref2 : Variant c2)
    (p : Scalar * Scalar) : Prop :=
  tag (base ref1) = get_tag (fst p) /\ tag (base ref2) = get_tag (snd p).

(** The two ways a walk over a candidate list can end. *)
Inductive outcome {A} (hit : A -> Prop) (l : list A) (on_hit : A -> Prop)
    (on_miss : Prop) : Prop :=
  | first_hit pre x post :
      l = pre ++ x :: post -> hit x -> Forall (fun y => ~ hit y) pre ->
      on_hit x -> outcome hit l on_hit on_miss
  | no_hit : Forall (fun y => ~ hit y) l -> on_miss ->
      outcome hit l on_hit on_miss.

(** What a checking constructor owes its caller: for a source whose tag
    is among the tags of [S0, Scalars...] a view of those types that
    agrees with the source in every field, and otherwise the
    [std::runtime_error] with message [what]. *)
Definition constructed {c c'} (res : result (Variant c))
    (S0 : Scalar) (Scalars : list Scalar) (src : BasicArrayRef c')
    (what : string) : Prop :=
  if bool_decide (tag src ∈ map get_tag (S0 :: Scalars))
  then exists v, res = Ok v /\ Types v = S0 :: Scalars /\
         tag (base v) = tag src /\
         is_row_major (base v) = is_row_major src /\
         data (base v) = data src /\
         rows (base v) = rows src /\
         cols (base v) = cols src
  else res = Throw what.

End DispatchVocabulary.

(** The number of valid entries of a validity array. *)
Fixpoint count_valid (l : list bool) : nat :=
  match l with
  | [] => 0
  | v :: l' => (if v then 1 else 0) + count_valid l'
  end.

(** Every neighbor that [for_each_neighbour] hands out is a site of the
    foundation. *)
Definition neighbors_in_range (hoppings : nat -> list (option nat))
    (n : nat) : Prop :=
  forall idx j : nat, Some j ∈ hoppings idx -> j < n.


Section FoundationVocabulary.
Import Foundation.

(** The index array after the loop has handled the sites below [k]: the
    valid ones among them hold their rank among the valid sites. *)
Definition indices_upto (valid : list bool) (k n : nat) : list Z :=
  (fun i : nat =>
     if bool_decide (i < k) && at_ valid i
     then Z.of_nat (count_valid (take i valid)) else (-1)%Z) <$> seq 0 n.

(** How a piece of the computation moves the state: [own] calls are
    entered by the piece itself, [rec] of them recursive, every other
    call pays with one site turned invalid, and no call is nested deeper
    than [deepest]. *)
Definition moves (own rec deepest : nat) (st st' : State) : Prop :=
  length (is_valid st') = length (is_valid st) /\
  count_valid (is_valid st') <= count_valid (is_valid st) /\
  calls st' + count_valid (is_valid st')
    = calls st + count_valid (is_valid st) + own /\
  recursive_calls st' + count_valid (is_valid st')
    = recursive_calls st + count_valid (is_valid st) + rec /\
  max_depth st' <= Nat.max (max_depth st) deepest.

End FoundationVocabulary.

(** A chain of three sites of one sublattice with hoppings to the left and
    to the right. *)
Definition chain3 (idx : nat) : list (option nat) :=
  match idx with
  | 0 => [None; Some 1]
  | 1 => [Some 0; Some 2]
  | 2 => [Some 1; None]
  | _ => []
  end.

(** The statement that [remove_dangling] enters [clear_neighbors] at most once
    per site of the foundation. *)
Definition calls_bounded_by_sites : Prop :=
  forall hoppings min_neighbors foundation st,
    neighbors_in_range hoppings (Foundation.get_num_sites foundation) ->
    length (Foundation.get_states foundation)
      = Foundation.get_num_sites foundation ->
    Foundation.remove_dangling hoppings min_neighbors
      (Foundation.get_num_sites foundation) foundation = Some st ->
    Foundation.calls st <= Foundation.get_num_sites foundation.

Section KpmVocabulary.
Import Kpm.

(** The indices laid out so far are distinct rows of the matrix. *)
Definition laid_out (m : Sparsity) (order : list nat) : Prop :=
  NoDup order /\ Forall (fun i => i < length m) order.

End KpmVocabulary.

(** A small concrete engine for running the binding: the matrix of a
    one-site model is its on-site energy, the optimized state is the
    energy itself, and the LDOS reports the energy of the state it was
    computed from. *)
Definition one_site_ldos (kpm : Kpm.Engine Z Z Z) (energy : list Z)
    (broadening : Z) (position : Z) (sublattice : string)
    : list Z * Kpm.Engine Z Z Z :=
  match Kpm.optimized_for (fun m => m) (fun m _ _ => m) {[0]} kpm with
  | (Some st, kpm') => ([st], kpm')
  | (None, kpm') => ([], kpm')
  end.

Definition one_site_set_model (kpm : Kpm.Engine Z Z Z) (model : Z)
    : Kpm.Engine Z Z Z :=
  Kpm.set_model model kpm.

(** The statement that a deferred request is a snapshot: run after the model
    of the engine was replaced, it returns what [calc_ldos] returned when
    the request was created. *)
Definition deferred_is_snapshot : Prop :=
  forall (KPM Model ArrayXd Cartesian Real : Type)
         (calc_ldos : KPM -> ArrayXd -> Real -> Cartesian -> string -> ArrayXd * KPM)
         (set_model : KPM -> Model -> KPM)
         (self : nat) energy broadening position sublattice
         (heap heap1 heap2 heap3 : gmap nat KPM) d model now later,
    Kpm.deferred_ldos KPM ArrayXd Cartesian Real calc_ldos self energy
      broadening position sublattice heap = Ok d ->
    Kpm.py_calc_ldos KPM ArrayXd Cartesian Real calc_ldos self energy
      broadening position sublattice heap = Ok (now, heap1) ->
    Kpm.py_set_model KPM Model set_model self model heap = Ok heap2 ->
    Kpm.compute d heap2 = Ok (later, heap3) ->
    later = now.


(* ===================================================================== *)
(** * More of numeric/arrayref.hpp *)
(* ===================================================================== *)
Module ArrayRefTyped.
Import ArrayRef.

(** [template<class scalar_t> arrayref(scalar_t* data, int size)] and its
    overload for [scalar_t const*]: a 1D reference tagged with the tag of
    the element type. *)
Definition arrayref {c} (scalar_t : Scalar) (data : Z) (size : Z)
    : BasicArrayRef c :=
  MkRef (get_tag scalar_t) true data 1 size.

End ArrayRefTyped.

(** The scalar type that a tag stands for. *)
Definition scalar_of_tag (t : ArrayRef.Tag) : ArrayRef.Scalar :=
  match t with
  | ArrayRef.f32 => ArrayRef.float
  | ArrayRef.cf32 => ArrayRef.complex_float
  | ArrayRef.f64 => ArrayRef.double
  | ArrayRef.cf64 => ArrayRef.complex_double
  | ArrayRef.b => ArrayRef.bool_t
  | ArrayRef.i8 => ArrayRef.int8_t
  | ArrayRef.i16 => ArrayRef.int16_t
  | ArrayRef.i32 => ArrayRef.int32_t
  | ArrayRef.i64 => ArrayRef.int64_t
  | ArrayRef.u8 => ArrayRef.uint8_t
  | ArrayRef.u16 => ArrayRef.uint16_t
  | ArrayRef.u32 => ArrayRef.uint32_t
  | ArrayRef.u64 => ArrayRef.uint64_t
  end.

(** The invariant that the checking constructors establish: the tag of the
    view is the tag of one of its declared types. *)
Definition well_tagged {c} (v : ArrayRef.Variant c) : Prop :=
  ArrayRef.tag (ArrayRef.base v) ∈ map ArrayRef.get_tag (ArrayRef.Types v).

(** A step of [remove_dangling] may only take sites away: the arrays keep
    their lengths and every site valid afterwards was valid before. *)
Definition shrinks (st st' : Foundation.State) : Prop :=
  length (Foundation.is_valid st') = length (Foundation.is_valid st) /\
  length (Foundation.neighbor_count st')
    = length (Foundation.neighbor_count st) /\
  forall i : nat, Foundation.is_valid st' !! i = Some true ->
                  Foundation.is_valid st !! i = Some true.

(* ===================================================================== *)
(** * More of system/Foundation.cpp: bounds, sizes and positions *)
(* ===================================================================== *)
Module FoundationGeometry.
Import Foundation.

Definition INT_MIN : Z := (- 2 ^ 31)%Z.

(** [Array3i] and [Index3D]: three C++ [int]s. *)
Definition Array3i : Set := (Z * Z * Z)%type.

(** [Array3i::Constant] *)
Definition Constant (c : Z) : Array3i := (c, c, c).

(** [v[d]] *)
Definition coeff (v : Array3i) (d : nat) : Z :=
  let '(x, y, z) := v in
  match d with
  | 0 => x
  | 1 => y
  | _ => z
  end.

(** A coefficient-wise binary operation. *)
Definition cwise (f : Z -> Z -> Z) (a b : Array3i) : Array3i :=
  let '(ax, ay, az) := a in
  let '(bx, by_, bz) := b in
  (f ax bx, f ay by_, f az bz).

(** [(a < b).select(a, b)] and [(a > b).select(a, b)] *)
Definition select_lt : Array3i -> Array3i -> Array3i :=
  cwise (fun a b => if (a <? b)%Z then a else b).
Definition select_gt : Array3i -> Array3i -> Array3i :=
  cwise (fun a b => if (a >? b)%Z then a else b).

(** [x.head(n) = f(x.head(n))]: the first [n] coefficients are updated. *)
Definition head_update (n : nat) (f : Z -> Z) (v : Array3i) : Array3i :=
  let '(x, y, z) := v in
  match n with
  | 0 => (x, y, z)
  | 1 => (f x, y, z)
  | 2 => (f x, f y, z)
  | _ => (f x, f y, f z)
  end.

Section FindBounds.
(** A vertex of the shape reaches [find_bounds] through
    [lattice.translate_coordinates(point).cast<int>()], floating-point
    code of the lattice that is not among the sources: [translate] is that
    composition, from a vertex to its truncated lattice coordinates. *)
Variable Point : Type.
Variable translate : Point -> Array3i.

(** One pass of the loop over [shape.vertices]. *)
Definition widen (bounds : Array3i * Array3i) (point : Point)
    : Array3i * Array3i :=
  let v := translate point in
  (select_lt v (fst bounds), select_gt v (snd bounds)).

(** [detail::find_bounds]; [ndim] is [lattice.ndim()]. *)
Definition find_bounds (vertices : list Point) (ndim : nat)
    : Array3i * Array3i :=
  let lower_bound := Constant INT_MAX in
  let upper_bound := Constant INT_MIN in
  let '(lower_bound, upper_bound) :=
    fold_left widen vertices (lower_bound, upper_bound) in
  (head_update ndim (fun x => int32 (x - 1)) lower_bound,
   head_update ndim (fun x => int32 (x + 1)) upper_bound).
End FindBounds.

(** [bounds(-primitive.size.array() / 2, (primitive.size.array() - 1) / 2)]
    of [Foundation(Lattice, Primitive)]; the division of C++ [int]s
    truncates. *)
Definition primitive_bounds (size : Array3i) : Array3i * Array3i :=
  let '(x, y, z) := size in
  let first s := (int32 (- s) ÷ 2)%Z in
  let second s := (int32 (s - 1) ÷ 2)%Z in
  ((first x, first y, first z), (second x, second y, second z)).

(** [size((bounds.second - bounds.first) + Index3D::Ones())] of
    [Foundation(Lattice, Shape)] *)
Definition size_of_bounds (bounds : Array3i * Array3i) : Array3i :=
  cwise (fun hi lo => int32 (int32 (hi - lo) + 1)) (snd bounds) (fst bounds).

(** [size.prod()] *)
Definition prod (size : Array3i) : Z :=
  let '(x, y, z) := size in int32 (int32 (x * y) * z).

(** [num_sites(size.prod() * nsub)] *)
Definition num_sites_of (size : Array3i) (nsub : Z) : Z :=
  int32 (prod size * nsub).

Section Positions.
(** [Cartesian] is a vector of three floats.  Its arithmetic is kept
    abstract: [add] is [operator+], [scaled n v] is
    [static_cast<float>(n) * v], [sub_position s] is [lattice[s].position]
    and [vector i] is [lattice.vector(i)]. *)
Variable Cartesian : Type.
Variable add : Cartesian -> Cartesian -> Cartesian.
Variable scaled : Z -> Cartesian -> Cartesian.
Variable sub_position : Z -> Cartesian.
Variable vector : nat -> Cartesian.

(** The values of a loop counter [for (auto i = 0; i < n; ++i)]. *)
Definition counter (n : Z) : list Z := Z.of_nat <$> seq 0 (Z.to_nat n).

(** [positions[idx++] = pa] on an array whose unwritten slots are [None];
    a write past the end of the array has no result. *)
Definition store (pa : Cartesian) (st : list (option Cartesian) * nat)
    : option (list (option Cartesian) * nat) :=
  let '(positions, idx) := st in
  if decide (idx < length positions)
  then Some (<[idx := Some pa]> positions, S idx)
  else None.

(** [detail::generate_positions] *)
Definition generate_positions (origin : Cartesian) (size : Array3i)
    (nsub : Z) : option (list (option Cartesian)) :=
  let num_sites := num_sites_of size nsub in
  let positions := replicate (Z.to_nat num_sites) None in
  let idx := 0 in
  fst <$>
  for_each (fun s =>
    let ps := add origin (sub_position s) in
    for_each (fun c =>
      let pc := if (c =? 0)%Z then ps else add ps (scaled c (vector 2)) in
      for_each (fun b =>
        let pb := if (b =? 0)%Z then pc else add pc (scaled b (vector 1)) in
        for_each (fun a =>
          let pa := add pb (scaled a (vector 0)) in
          store pa)
        (counter (coeff size 0)))
      (counter (coeff size 1)))
    (counter (coeff size 2)))
  (counter nsub) (positions, idx).
End Positions.

Section Constructors.
(** The lattice and the shape are outside the sources; what the two
    constructors ask of them are parameters: the translation of the
    vertices for [find_bounds], the arithmetic of [generate_positions],
    [lattice.calc_position] for the origin, [shape.contains], and the
    hoppings of the sites for [remove_dangling] (as in [Foundation]). *)
Variable Point : Type.
Variable translate : Point -> Array3i.
Variable Cartesian : Type.
Variable add : Cartesian -> Cartesian -> Cartesian.
Variable scaled : Z -> Cartesian -> Cartesian.
Variable sub_position : Z -> Cartesian.
Variable vector : nat -> Cartesian.
Variable calc_position : Array3i -> Cartesian.
Variable contains : list (option Cartesian) -> list bool.
Variable hoppings : nat -> list (option nat).

(** The data members that the constructors initialise. *)
Record Built : Type := MkBuilt {
  bounds : Array3i * Array3i;
  size : Array3i;
  nsub : Z;
  num_sites : Z;
  positions : list (option Cartesian);
  built_states : list bool
}.

(** [Foundation::Foundation(Lattice const&, Primitive const&)]: every site
    is valid, [is_valid(ArrayX<bool>::Constant(num_sites, true))]. *)
Definition Foundation_of_primitive (lattice_nsub : Z)
    (primitive_size : Array3i) : option Built :=
  let bounds := primitive_bounds primitive_size in
  let size := primitive_size in
  let nsub := lattice_nsub in
  let num_sites := num_sites_of size nsub in
  match generate_positions Cartesian add scaled sub_position vector
          (calc_position (fst bounds)) size nsub with
  | Some positions =>
      Some (MkBuilt bounds size nsub num_sites positions
                    (replicate (Z.to_nat num_sites) true))
  | None => None
  end.

(** [Foundation::Foundation(Lattice const&, Shape const&)]: the sites
    inside the shape, pruned by [remove_dangling]; [ndim], [lattice_nsub]
    and [min_neighbors] are [lattice.ndim()], [lattice.nsub()] and
    [lattice.get_min_neighbors()], and [fuel] is the nesting budget of
    [clear_neighbors]. *)
Definition Foundation_of_shape (fuel : nat) (ndim : nat) (lattice_nsub : Z)
    (min_neighbors : Z) (vertices : list Point) : option Built :=
  let bounds := find_bounds Point translate vertices ndim in
  let size := size_of_bounds bounds in
  let nsub := lattice_nsub in
  let num_sites := num_sites_of size nsub in
  match generate_positions Cartesian add scaled sub_position vector
          (calc_position (fst bounds)) size nsub with
  | Some positions =>
      let is_valid := contains positions in
      match remove_dangling hoppings min_neighbors fuel
              (MkFoundation (Z.to_nat num_sites) is_valid) with
      | Some st =>
          Some (MkBuilt bounds size nsub num_sites positions
                        (Foundation.is_valid st))
      | None => None
      end
  | None => None
  end.

(** The view of a built foundation that [HamiltonianIndices] works on. *)
Definition as_foundation (f : Built) : Foundation :=
  MkFoundation (Z.to_nat (num_sites f)) (built_states f).
End Constructors.

Arguments bounds {Cartesian}.
Arguments size {Cartesian}.
Arguments nsub {Cartesian}.
Arguments num_sites {Cartesian}.
Arguments positions {Cartesian}.
Arguments built_states {Cartesian}.
Arguments as_foundation {Cartesian}.

End FoundationGeometry.

(** The position that [generate_positions] computes for the site with
    lattice index (a, b, c) of sublattice s. *)
Definition position_of {Cartesian : Type}
    (add : Cartesian -> Cartesian -> Cartesian)
    (scaled : Z -> Cartesian -> Cartesian)
    (sub_position : Z -> Cartesian) (vector : nat -> Cartesian)
    (origin : Cartesian) (s c b a : Z) : Cartesian :=
  let ps := add origin (sub_position s) in
  let pc := if (c =? 0)%Z then ps else add ps (scaled c (vector 2)) in
  let pb := if (b =? 0)%Z then pc else add pc (scaled b (vector 1)) in
  add pb (scaled a (vector 0)).

(** An array of [n] slots of which the first ones have been written, in
    order, with the values [done], together with the next index to
    write. *)
Definition written {C : Type} (n : nat) (done : list C)
    (st : list (option C) * nat) : Prop :=
  st = ((Some <$> done) ++ replicate (n - length done) None, length done) /\
  length done <= n.

(** The positions in the order of the four nested loops of
    [generate_positions]. *)
Definition positions_in_order {Cartesian : Type}
    (add : Cartesian -> Cartesian -> Cartesian)
    (scaled : Z -> Cartesian -> Cartesian)
    (sub_position : Z -> Cartesian) (vector : nat -> Cartesian)
    (origin : Cartesian) (size : FoundationGeometry.Array3i) (nsub : Z)
    : list Cartesian :=
  FoundationGeometry.counter nsub ≫= fun s =>
  FoundationGeometry.counter (FoundationGeometry.coeff size 2) ≫= fun c =>
  FoundationGeometry.counter (FoundationGeometry.coeff size 1) ≫= fun b =>
  FoundationGeometry.counter (FoundationGeometry.coeff size 0) ≫= fun a =>
  [position_of add scaled sub_position vector origin s c b a].

(** A concrete lattice for running the geometry: positions with integer
    coordinates, unit lattice vectors along the axes, and sublattice [s]
    displaced by [s] along the third axis. *)
Definition grid_add (a b : FoundationGeometry.Array3i)
    : FoundationGeometry.Array3i :=
  FoundationGeometry.cwise Z.add a b.
Definition grid_scaled (n : Z) (v : FoundationGeometry.Array3i)
    : FoundationGeometry.Array3i :=
  FoundationGeometry.cwise Z.mul (n, n, n) v.
Definition grid_vector (i : nat) : FoundationGeometry.Array3i :=
  match i with
  | 0 => (1, 0, 0)%Z
  | 1 => (0, 1, 0)%Z
  | _ => (0, 0, 1)%Z
  end.
Definition grid_sub_position (s : Z) : FoundationGeometry.Array3i :=
  (0, 0, s)%Z.

(** An operation that reports the element type it was run for and the
    number of columns of the view. *)
Definition report_type : ArrayRef.Function1 (W:=unit) (fun _ => Z) :=
  fun s size w => ((s, size), w).
Definition report_types
    : ArrayRef.Function2 (W:=unit) (fun _ => Z) (fun _ => Z) :=
  fun s1 s2 size1 size2 w => ((s1, s2, size1, size2), w).

(* ===================================================================== *)
(** * Properties of the scalar dispatch *)
(* ===================================================================== *)
Section DispatchFacts.
Import ArrayRef.
Context {c1 c2 : bool} {W Result : Type}.
Variable Container1 Container2 : Scalar -> Type.
Variable make1 : forall s, BasicArrayRef c1 -> Container1 s.
Variable make2 : forall s, BasicArrayRef c2 -> Container2 s.

Lemma outcome_cons_miss {A} (hit : A -> Prop) x l on_hit on_miss :
  ~ hit x -> outcome hit l on_hit on_miss ->
  outcome hit (x :: l) on_hit on_miss.
Proof.
  intros Hx [pre y post -> Hy Hpre Hon | Hall Hmiss].
  - apply (first_hit _ _ _ _ (x :: pre) y post); auto.
  - apply no_hit; auto.
Qed.

Lemma try_match_outcome (ref : Variant c1)
    (lambda : Function1 (W:=W) (Result:=Result) Container1) types w :
  outcome (hits ref) types
    (fun s => try_match Container1 make1 ref lambda types w
              = Ok (lambda s (make1 s (base ref)) w))
    (try_match Container1 make1 ref lambda types w
     = Throw "A match was not found").
Proof.
  induction types as [|s tl IH]; simpl.
  - apply no_hit; auto.
  - case_bool_decide as Hs.
    + apply (first_hit _ _ _ _ [] s tl); auto.
    + apply outcome_cons_miss; [exact Hs|].
      destruct IH as [pre y post -> Hy Hpre Hon | Hall Hmiss].
      * eapply first_hit; eauto.
      * apply no_hit; auto.
Qed.

Lemma try_match2_outcome (ref1 : Variant c1) (ref2 : Variant c2)
    (lambda : Function2 (W:=W) (Result:=Result) Container1 Container2)
    pairs w :
  outcome (hits2 ref1 ref2) pairs
    (fun p => try_match2 Container1 Container2 make1 make2 ref1 ref2
                lambda pairs w
              = Ok (lambda (fst p) (snd p) (make1 (fst p) (base ref1))
                           (make2 (snd p) (base ref2)) w))
    (try_match2 Container1 Container2 make1 make2 ref1 ref2 lambda pairs w
     = Throw "A match was not found").
Proof.
  induction pairs as [|[s1 s2] tl IH]; simpl.
  - apply no_hit; auto.
  - destruct (decide (hits2 ref1 ref2 (s1, s2))) as [Hs|Hs].
    + destruct Hs as [H1 H2]; simpl in *.
      rewrite !bool_decide_eq_true_2 by assumption. simpl.
      apply (first_hit _ _ _ _ [] (s1, s2) tl); auto. split; auto.
    + assert (bool_decide (tag (base ref1) = get_tag s1)
              && bool_decide (tag (base ref2) = get_tag s2) = false) as ->.
      { apply andb_false_iff. unfold hits2 in Hs; simpl in Hs.
        destruct (decide (tag (base ref1) = get_tag s1)).
        - right. apply bool_decide_eq_false_2. tauto.
        - left. apply bool_decide_eq_false_2. tauto. }
      apply outcome_cons_miss; [exact Hs|].
      destruct IH as [pre y post -> Hy Hpre Hon | Hall Hmiss].
      * eapply first_hit; eauto.
      * apply no_hit; auto.
Qed.

Lemma first_hit_unique {A} (hit : A -> Prop) l pre x post pre' x' post' :
  l = pre ++ x :: post -> l = pre' ++ x' :: post' ->
  hit x -> hit x' ->
  Forall (fun y => ~ hit y) pre -> Forall (fun y => ~ hit y) pre' ->
  pre' = pre /\ x' = x.
Proof.
  intros -> Heq Hx Hx'. revert pre' Heq.
  induction pre as [|y pre IH]; intros [|y' pre'] Heq Hpre Hpre';
    simpl in Heq; inversion Heq; subst; auto.
  - inversion Hpre'; subst. contradiction.
  - inversion Hpre; subst. contradiction.
  - inversion Hpre; inversion Hpre'; subst.
    destruct (IH pre' H1) as [-> ->]; auto.
Qed.
End DispatchFacts.

Section DispatchTheorems.
Import ArrayRef.
Context {c1 c2 : bool} {W Result : Type}.
Variable Container1 Container2 : Scalar -> Type.
Variable make1 : forall s, BasicArrayRef c1 -> Container1 s.
Variable make2 : forall s, BasicArrayRef c2 -> Container2 s.

Lemma declared_tag_hits (types : list Scalar) (t : Tag) :
  t ∈ map get_tag types <-> Exists (fun s => t = get_tag s) types.
Proof.
  rewrite Exists_exists, list_elem_of_fmap. split.
  - intros (s & -> & Hs). eauto.
  - intros (s & Hs & ->). eauto.
Qed.

Lemma Combinations_elem (l1 l2 : list Scalar) s1 s2 :
  (s1, s2) ∈ Combinations l1 l2 <-> s1 ∈ l1 /\ s2 ∈ l2.
Proof.
  unfold Combinations. rewrite list_elem_of_bind. split.
  - intros (x & Hin & Hx). apply list_elem_of_bind in Hin.
    destruct Hin as (y & Hin & Hy). apply list_elem_of_singleton in Hin.
    inversion Hin; subst. auto.
  - intros [H1 H2]. exists s1. split; [|exact H1].
    apply list_elem_of_bind. exists s2. split; [|exact H2].
    apply list_elem_of_singleton. reflexivity.
Qed.

Lemma Filter_elem {A} (p : A -> bool) (l : list A) x :
  x ∈ Filter l p <-> x ∈ l /\ p x = true.
Proof.
  unfold Filter. rewrite !list_elem_of_In. apply filter_In.
Qed.

(** C1: when the tag of a variant reference is one of the tags of its
    declared type list, [match] runs the operation exactly once, on the
    container made for the first type of the list with that tag, and
    returns what the operation returned (together with the world the
    operation left). *)
Theorem match_invokes_first_matching_type
    (ref : Variant c1)
    (lambda : Function1 (W:=W) (Result:=Result) Container1) (w : W) :
  tag (base ref) ∈ map get_tag (Types ref) ->
  exists pre s post,
    Types ref = pre ++ s :: post /\
    get_tag s = tag (base ref) /\
    Forall (fun s' => get_tag s' <> tag (base ref)) pre /\
    match_ Container1 make1 ref lambda w
      = Ok (lambda s (make1 s (base ref)) w) /\
    match_ Container1 make1 ref (counting1 Container1 lambda) (0, w)
      = Ok (fst (lambda s (make1 s (base ref)) w),
            (1, snd (lambda s (make1 s (base ref)) w))).
Proof.
  intros Hin. apply declared_tag_hits, Exists_exists in Hin.
  destruct Hin as (s0 & Hs0 & Ht0). unfold match_.
  destruct (try_match_outcome Container1 make1 ref lambda (Types ref) w)
    as [pre s post Heq Hs Hpre Hon | Hall _].
  - exists pre, s, post. repeat split; auto.
    + eapply Forall_impl; [exact Hpre|]. unfold hits. intros ? ? ?. auto.
    + destruct (try_match_outcome Container1 make1 ref
                  (counting1 Container1 lambda) (Types ref) (0, w))
        as [pre' s' post' Heq' Hs' Hpre' Hon' | Hall' _].
      * destruct (first_hit_unique _ _ _ _ _ _ _ _ Heq Heq' Hs Hs' Hpre Hpre')
          as [-> ->].
        rewrite Hon'. unfold counting1. simpl.
        destruct (lambda s (make1 s (base ref)) w); reflexivity.
      * rewrite Forall_forall in Hall'. destruct (Hall' s0); auto.
  - rewrite Forall_forall in Hall. destruct (Hall s0); auto.
Qed.

(** C3: [match] ends in the error "A match was not found" exactly when no
    type of the declared list has the tag of the reference, [try_match2]
    exactly when no pair of its list has both tags, and so [match2] exactly
    when one of the two tags is outside its declared list; whenever a
    candidate has the tag(s) the outcome is not that error. *)
Theorem no_match_error_iff_no_candidate
    (ref1 : Variant c1) (ref2 : Variant c2)
    (lambda : Function1 (W:=W) (Result:=Result) Container1)
    (lambda2 : Function2 (W:=W) (Result:=Result) Container1 Container2)
    (types : list Scalar) (pairs : list (Scalar * Scalar)) (w : W) :
  (try_match Container1 make1 ref1 lambda types w
     = Throw "A match was not found"
   <-> tag (base ref1) ∉ map get_tag types) /\
  (match_ Container1 make1 ref1 lambda w = Throw "A match was not found"
   <-> tag (base ref1) ∉ map get_tag (Types ref1)) /\
  (try_match2 Container1 Container2 make1 make2 ref1 ref2 lambda2 pairs w
     = Throw "A match was not found"
   <-> Forall (fun p => ~ hits2 ref1 ref2 p) pairs) /\
  (match2 Container1 Container2 make1 make2 ref1 ref2 lambda2 w
     = Throw "A match was not found"
   <-> ~ (tag (base ref1) ∈ map get_tag (Types ref1) /\
          tag (base ref2) ∈ map get_tag (Types ref2))).
Proof.
  assert (H1 : forall tys,
    try_match Container1 make1 ref1 lambda tys w
      = Throw "A match was not found"
    <-> tag (base ref1) ∉ map get_tag tys).
  { intros tys. rewrite declared_tag_hits, <- Forall_Exists_neg.
    destruct (try_match_outcome Container1 make1 ref1 lambda tys w)
      as [pre s post -> Hs Hpre Hon | Hall Hmiss].
    - rewrite Hon. split; [discriminate|]. intros Hall.
      rewrite Forall_forall in Hall. destruct (Hall s); auto.
      apply list_elem_of_In, in_elt.
    - split; auto. }
  assert (H2 : forall ps,
    try_match2 Container1 Container2 make1 make2 ref1 ref2 lambda2 ps w
      = Throw "A match was not found"
    <-> Forall (fun p => ~ hits2 ref1 ref2 p) ps).
  { intros ps.
    destruct (try_match2_outcome Container1 Container2 make1 make2
                ref1 ref2 lambda2 ps w)
      as [pre s post -> Hs Hpre Hon | Hall Hmiss].
    - rewrite Hon. split; [discriminate|]. intros Hall.
      rewrite Forall_forall in Hall. destruct (Hall s); auto.
      apply list_elem_of_In, in_elt.
    - split; auto. }
  split; [apply H1|]. split; [apply H1|]. split; [apply H2|].
  unfold match2. rewrite H2, Forall_forall. split.
  - intros Hall [Ha Hb].
    apply declared_tag_hits, Exists_exists in Ha, Hb.
    destruct Ha as (s1 & Hs1 & Ht1), Hb as (s2 & Hs2 & Ht2).
    apply (Hall (s1, s2)); [|split; auto].
    apply Combinations_elem. auto.
  - intros Hno [s1 s2] Hin [Ha Hb]. apply Hno.
    apply Combinations_elem in Hin. destruct Hin. simpl in Ha, Hb.
    split; apply list_elem_of_fmap; eauto.
Qed.
End DispatchTheorems.

Section ConstructionTheorems.
Import ArrayRef.

Lemma none_of_tags (t : Tag) (tags : list Tag) :
  none_of (fun t' => bool_decide (t = t')) tags = negb (bool_decide (t ∈ tags)).
Proof.
  unfold none_of. f_equal. induction tags as [|x tags IH]; cbn [existsb].
  - symmetry. apply bool_decide_eq_false_2. apply not_elem_of_nil.
  - rewrite IH. destruct (decide (t = x)) as [->|Hne].
    + rewrite (bool_decide_eq_true_2 (x = x)) by reflexivity. simpl.
      symmetry. apply bool_decide_eq_true_2. left.
    + rewrite (bool_decide_eq_false_2 (t = x)) by assumption. simpl.
      apply bool_decide_ext. rewrite elem_of_cons. tauto.
Qed.

(** C4: each of the three constructors throws its type-mismatch error
    when the tag of the source is outside the allowed set, and otherwise
    succeeds with a view that has the source's tag, row-major flag, data
    handle, row count and column count. *)
Theorem variant_construction_checks_tag
    (S0 : Scalar) (Scalars : list Scalar)
    (other : ArrayConstRef) (a : ArrayRef) :
  constructed (VariantArrayConstRef S0 Scalars other) S0 Scalars other
    "Invalid VariantArrayConstRef assignment" /\
  constructed (VariantArrayRef S0 Scalars a) S0 Scalars a
    "Invalid VariantArrayRef assignment" /\
  constructed (VariantArrayConstRef_of_mutable S0 Scalars a) S0 Scalars a
    "Invalid VariantArrayConstRef assignment".
Proof.
  unfold constructed, VariantArrayConstRef_of_mutable,
    VariantArrayConstRef, VariantArrayRef.
  change (get_tag S0 :: map get_tag Scalars) with (map get_tag (S0 :: Scalars)).
  rewrite !none_of_tags. cbn [tag].
  repeat split; case_bool_decide; simpl; eauto 10.
Qed.
End ConstructionTheorems.

Section PairTheorems.
Import ArrayRef.
Context {c1 c2 : bool} {W Result : Type}.
Variable Container1 Container2 : Scalar -> Type.
Variable make1 : forall s, BasicArrayRef c1 -> Container1 s.
Variable make2 : forall s, BasicArrayRef c2 -> Container2 s.

(** C5: the candidates of [match2] are exactly the pairs of the product
    of the two declared lists, those of [match2sp] exactly the pairs of
    the product whose types have the same real type; each function runs
    the operation on the first candidate of its list (and only on it)
    whose two tags are the actual tags, and ends in the no-match error
    when its list has none. *)
Theorem match2_takes_first_pair_of_product
    (ref1 : Variant c1) (ref2 : Variant c2)
    (lambda : Function2 (W:=W) (Result:=Result) Container1 Container2)
    (w : W) :
  let List := Combinations (Types ref1) (Types ref2) in
  let FilteredList := Filter List IsSamePrecision in
  let invoke p :=
    Ok (lambda (fst p) (snd p) (make1 (fst p) (base ref1))
               (make2 (snd p) (base ref2)) w) in
  (forall s1 s2, (s1, s2) ∈ List <-> s1 ∈ Types ref1 /\ s2 ∈ Types ref2) /\
  (forall s1 s2, (s1, s2) ∈ FilteredList <->
     s1 ∈ Types ref1 /\ s2 ∈ Types ref2 /\ get_real_t s1 = get_real_t s2) /\
  outcome (hits2 ref1 ref2) List
    (fun p => match2 Container1 Container2 make1 make2 ref1 ref2 lambda w
              = invoke p)
    (match2 Container1 Container2 make1 make2 ref1 ref2 lambda w
     = Throw "A match was not found") /\
  outcome (hits2 ref1 ref2) FilteredList
    (fun p => match2sp Container1 Container2 make1 make2 ref1 ref2 lambda w
              = invoke p)
    (match2sp Container1 Container2 make1 make2 ref1 ref2 lambda w
     = Throw "A match was not found").
Proof.
  intros List FilteredList invoke. split; [|split; [|split]].
  - intros s1 s2. apply Combinations_elem.
  - intros s1 s2. unfold FilteredList, List.
    rewrite Filter_elem, Combinations_elem. unfold IsSamePrecision. simpl.
    rewrite bool_decide_eq_true. tauto.
  - apply try_match2_outcome.
  - apply try_match2_outcome.
Qed.

(** C8: a float32 view and a float64 view are both accepted by
    [ComplexArrayRef], yet [match2sp] on them ends in the no-match error
    whatever the operation: no pair with these two tags has one real
    type.  ([match2] on the same views runs the operation.) *)
Theorem match2sp_rejects_mixed_precision :
  exists (a1 a2 : ArrayRef) (v1 v2 : Variant false),
    tag a1 = f32 /\ tag a2 = f64 /\
    ComplexArrayRef a1 = Ok v1 /\ ComplexArrayRef a2 = Ok v2 /\
    forall (C1 C2 : Scalar -> Type)
           (mk1 : forall s, ArrayRef -> C1 s) (mk2 : forall s, ArrayRef -> C2 s)
           (lambda : Function2 (W:=W) (Result:=Result) C1 C2) (w : W),
      match2sp C1 C2 mk1 mk2 v1 v2 lambda w = Throw "A match was not found" /\
      match2 C1 C2 mk1 mk2 v1 v2 lambda w
        = Ok (lambda float double (mk1 float a1) (mk2 double a2) w).
Proof.
  exists (arrayref f32 4096 8), (arrayref f64 8192 8).
  eexists _, _. repeat split.
Qed.
End PairTheorems.

(** The hypothesis of [match_invokes_first_matching_type] holds for a
    float64 view matched as a [RealArrayRef]. *)
Lemma match_invokes_first_matching_type_witness :
  let ref := ArrayRef.MkVariant ArrayRef.float [ArrayRef.double]
               (ArrayRef.arrayref (c:=false) ArrayRef.f64 4096 3) in
  let lambda : ArrayRef.Function1 (W:=unit) (fun _ => Z) :=
    fun s size w => (size, w) in
  exists pre s post,
    ArrayRef.Types ref = pre ++ s :: post /\
    ArrayRef.get_tag s = ArrayRef.f64 /\
    Forall (fun s' => ArrayRef.get_tag s' <> ArrayRef.f64) pre /\
    ArrayRef.match_ (fun _ => Z) (fun _ r => ArrayRef.cols r) ref lambda tt
      = Ok (3%Z, tt) /\
    ArrayRef.match_ (fun _ => Z) (fun _ r => ArrayRef.cols r) ref
        (ArrayRef.counting1 (fun _ => Z) lambda) (0, tt)
      = Ok (3%Z, (1, tt)).
Proof.
  intros ref lambda.
  apply (match_invokes_first_matching_type (fun _ => Z)
           (fun _ r => ArrayRef.cols r) ref lambda tt).
  vm_compute. right. left.
Defined.

(* ===================================================================== *)
(** * Properties of the foundation *)
(* ===================================================================== *)

Section CountValid.
Implicit Types (l : list bool) (i j k : nat).
Lemma count_valid_app (l1 l2 : list bool) :
  count_valid (l1 ++ l2) = count_valid l1 + count_valid l2.
Proof. induction l1 as [|v l1 IH]; simpl; [reflexivity | rewrite IH; lia]. Qed.

Lemma count_valid_le_length l : count_valid l <= length l.
Proof. induction l as [|[] l IH]; simpl; lia. Qed.

Lemma count_valid_take_S l i (v : bool) :
  l !! i = Some v ->
  count_valid (take (S i) l) = count_valid (take i l) + (if v then 1 else 0).
Proof.
  intros Hi. rewrite (take_S_r _ _ _ Hi), count_valid_app. simpl. lia.
Qed.

Lemma count_valid_take_mono l i j :
  i <= j -> count_valid (take i l) <= count_valid (take j l).
Proof.
  intros Hij. replace j with (i + (j - i)) by lia.
  rewrite <- take_take_drop, count_valid_app. lia.
Qed.

Lemma count_valid_take_all l n :
  length l <= n -> count_valid (take n l) = count_valid l.
Proof. intros Hn. rewrite take_ge by lia. reflexivity. Qed.

Lemma count_valid_take_lt l i j :
  i < j -> l !! i = Some true ->
  count_valid (take i l) < count_valid (take j l).
Proof.
  intros Hij Hi. pose proof (count_valid_take_S l i true Hi) as HS.
  pose proof (count_valid_take_mono l (S i) j ltac:(lia)). simpl in HS. lia.
Qed.

Lemma count_valid_onto l k :
  k < count_valid l ->
  exists i, l !! i = Some true /\ count_valid (take i l) = k.
Proof.
  revert k. induction l as [|v l IH]; simpl; intros k Hk; [lia|].
  destruct v.
  - destruct k as [|k].
    + exists 0. auto.
    + destruct (IH k) as (i & Hi & Hc); [lia|].
      exists (S i). simpl. rewrite Hc. auto.
  - destruct (IH k) as (i & Hi & Hc); [lia|].
    exists (S i). simpl. auto.
Qed.

Lemma count_valid_insert_false l i :
  l !! i = Some true ->
  S (count_valid (<[i := false]> l)) = count_valid l.
Proof.
  revert i. induction l as [|v l IH]; intros [|i] Hi; simpl in *;
    try discriminate.
  - inversion Hi; subst. reflexivity.
  - rewrite <- (IH i Hi). lia.
Qed.

Lemma count_valid_lt_length l i :
  l !! i = Some false -> count_valid l < length l.
Proof.
  revert i. induction l as [|v l IH]; intros [|i] Hi; simpl in *;
    try discriminate.
  - inversion Hi; subst. pose proof (count_valid_le_length l). lia.
  - specialize (IH i Hi). destruct v; lia.
Qed.
End CountValid.

Section HamiltonianIndicesFacts.
Import Foundation.
Local Open Scope Z_scope.

Lemma int32_small z : - 2 ^ 31 <= z < 2 ^ 31 -> int32 z = z.
Proof.
  intros Hz. unfold int32, wrap.
  change (2 ^ (32 - 1)) with (2 ^ 31). change (2 ^ 32) with (2 * 2 ^ 31).
  rewrite Z.mod_small; lia.
Qed.

Lemma indices_upto_lookup valid k n (i : nat) :
  (i < n)%nat ->
  indices_upto valid k n !! i
  = Some (if bool_decide (i < k)%nat && at_ valid i
          then Z.of_nat (count_valid (take i valid)) else -1).
Proof.
  intros Hi. unfold indices_upto.
  rewrite list_lookup_fmap, lookup_seq_lt by lia. reflexivity.
Qed.

Lemma indices_upto_length valid k n : length (indices_upto valid k n) = n.
Proof. unfold indices_upto. rewrite length_fmap, length_seq. reflexivity. Qed.

Lemma assign_index_loop (valid : list bool) (n k : nat) :
  length valid = n -> Z.of_nat n <= INT_MAX -> (k <= n)%nat ->
  fold_left (assign_index valid) (seq 0 k) (MkIndices (replicate n (-1)) 0)
  = MkIndices (indices_upto valid k n)
              (Z.of_nat (count_valid (take k valid))).
Proof.
  intros Hlen Hmax. induction k as [|k IH]; intros Hk.
  - simpl. f_equal. apply list_eq. intros i.
    destruct (decide (i < n)%nat) as [Hi|Hi].
    + rewrite indices_upto_lookup by lia.
      rewrite lookup_replicate_2 by lia.
      rewrite bool_decide_eq_false_2 by lia. reflexivity.
    + rewrite !lookup_ge_None_2; auto.
      * rewrite indices_upto_length. lia.
      * rewrite length_replicate. lia.
  - rewrite seq_S, fold_left_app, IH by lia. simpl.
    destruct (lookup_lt_is_Some_2 valid k) as [v Hv]; [lia|].
    unfold assign_index. cbn [indices num_valid_sites].
    unfold at_ at 1. rewrite (list_lookup_total_correct _ _ _ Hv).
    rewrite (count_valid_take_S _ _ _ Hv).
    pose proof (count_valid_le_length (take k valid)) as Hc.
    rewrite length_take in Hc.
    destruct v.
    + f_equal.
      * apply list_eq. intros i.
        destruct (decide (i < n)%nat) as [Hi|Hi].
        -- rewrite indices_upto_lookup by lia.
           destruct (decide (i = k)) as [->|Hne].
           ++ rewrite list_lookup_insert_eq
                by (rewrite indices_upto_length; lia).
              rewrite bool_decide_eq_true_2 by lia.
              unfold at_. rewrite (list_lookup_total_correct _ _ _ Hv).
              reflexivity.
           ++ rewrite list_lookup_insert_ne by congruence.
              rewrite indices_upto_lookup by lia.
              rewrite (bool_decide_ext (i < k)%nat (i < S k)%nat) by lia.
              reflexivity.
        -- rewrite !lookup_ge_None_2; auto.
           ++ rewrite indices_upto_length. lia.
           ++ rewrite length_insert, indices_upto_length. lia.
      * unfold INT_MAX in Hmax. rewrite int32_small by lia. lia.
    + f_equal; [|f_equal; lia].
      apply list_eq. intros i.
      destruct (decide (i < n)%nat) as [Hi|Hi].
      * rewrite !indices_upto_lookup by lia.
        destruct (decide (i = k)) as [->|Hne].
        -- rewrite bool_decide_eq_false_2 by lia.
           unfold at_. rewrite (list_lookup_total_correct _ _ _ Hv).
           rewrite !andb_false_r. reflexivity.
        -- rewrite (bool_decide_ext (i < k)%nat (i < S k)%nat) by lia.
           reflexivity.
      * rewrite !lookup_ge_None_2; auto; rewrite indices_upto_length; lia.
Qed.

(** C9: for a foundation of at most [INT_MAX] sites whose validity array
    has one entry per site, the constructor leaves in [indices] the rank
    of every valid site among the valid sites and -1 at every invalid
    site, and in [num_valid_sites] the number of valid sites.  Hence an
    entry is non-negative exactly at the valid sites, the indices of the
    valid sites increase with the site index, and every value of
    [0, num_valid_sites) is the index of a valid site. *)
Theorem hamiltonian_indices_enumerate_valid_sites (foundation : Foundation) :
  length (get_states foundation) = get_num_sites foundation ->
  Z.of_nat (get_num_sites foundation) <= INT_MAX ->
  let valid := get_states foundation in
  let h := HamiltonianIndices_of foundation in
  length (indices h) = get_num_sites foundation /\
  num_valid_sites h = Z.of_nat (count_valid valid) /\
  (forall i : nat, valid !! i = Some true ->
     indices h !! i = Some (Z.of_nat (count_valid (take i valid)))) /\
  (forall i : nat, valid !! i = Some false -> indices h !! i = Some (-1)) /\
  (forall (i : nat) z, indices h !! i = Some z ->
     (0 <= z <-> valid !! i = Some true) /\ z < num_valid_sites h) /\
  (forall (i j : nat) zi zj, (i < j)%nat ->
     valid !! i = Some true -> valid !! j = Some true ->
     indices h !! i = Some zi -> indices h !! j = Some zj -> zi < zj) /\
  (forall z, 0 <= z < num_valid_sites h ->
     exists i : nat, valid !! i = Some true /\ indices h !! i = Some z).
Proof.
  intros Hlen Hmax valid h.
  change (length valid = get_num_sites foundation) in Hlen.
  assert (Hh : h = MkIndices
                     (indices_upto valid (get_num_sites foundation)
                                   (get_num_sites foundation))
                     (Z.of_nat (count_valid valid))).
  { unfold h, HamiltonianIndices_of.
    rewrite (assign_index_loop _ _ _ Hlen Hmax) by lia.
    fold valid. rewrite count_valid_take_all by lia. reflexivity. }
  rewrite Hh. cbn [indices num_valid_sites]. clear Hh h.
  set (n := get_num_sites foundation) in *.
  assert (Hat : forall (i : nat) (v : bool), valid !! i = Some v ->
            indices_upto valid n n !! i
            = Some (if v then Z.of_nat (count_valid (take i valid)) else -1)).
  { intros i v Hv. pose proof (lookup_lt_Some _ _ _ Hv) as Hi.
    rewrite indices_upto_lookup by lia.
    rewrite bool_decide_eq_true_2 by lia.
    unfold at_. rewrite (list_lookup_total_correct _ _ _ Hv). reflexivity. }
  assert (Hrank : forall i : nat, valid !! i = Some true ->
            (count_valid (take i valid) < count_valid valid)%nat).
  { intros i Hv. pose proof (lookup_lt_Some _ _ _ Hv) as Hi.
    pose proof (count_valid_take_lt valid i (length valid) Hi Hv) as Hlt.
    rewrite (count_valid_take_all valid (length valid)) in Hlt by lia.
    exact Hlt. }
  split; [apply indices_upto_length|]. split; [reflexivity|].
  split; [intros i Hv; apply (Hat i true Hv)|].
  split; [intros i Hv; apply (Hat i false Hv)|].
  split; [|split].
  - intros i z Hz. pose proof (lookup_lt_Some _ _ _ Hz) as Hi.
    rewrite indices_upto_length in Hi.
    destruct (lookup_lt_is_Some_2 valid i) as [v Hv]; [lia|].
    rewrite (Hat i v Hv) in Hz. inversion Hz; subst z. destruct v.
    + specialize (Hrank i Hv). split; [|lia]. split; [auto|lia].
    + split; [|lia]. split; [lia|congruence].
  - intros i j zi zj Hij Hi Hj Hzi Hzj.
    rewrite (Hat i true Hi) in Hzi. rewrite (Hat j true Hj) in Hzj.
    inversion Hzi; inversion Hzj; subst.
    pose proof (count_valid_take_lt valid i j Hij Hi). lia.
  - intros z Hz.
    destruct (count_valid_onto valid (Z.to_nat z)) as (i & Hi & Hc); [lia|].
    exists i. split; [exact Hi|]. rewrite (Hat i true Hi), Hc. f_equal. lia.
Qed.
End HamiltonianIndicesFacts.

Section RemoveDanglingFacts.
Import Foundation.
Variable hoppings : nat -> list (option nat).
Variable min_neighbors : Z.
Variable n : nat.

Hypothesis Hrange : neighbors_in_range hoppings n.

Lemma at_valid_true (l : list bool) (j : nat) :
  j < length l -> at_ l j = true -> l !! j = Some true.
Proof.
  intros Hj Ht. destruct (lookup_lt_is_Some_2 l j Hj) as [v Hv].
  unfold at_ in Ht. rewrite (list_lookup_total_correct _ _ _ Hv) in Ht.
  congruence.
Qed.

Lemma at_valid_false (l : list bool) (j : nat) :
  j < length l -> at_ l j = false -> l !! j = Some false.
Proof.
  intros Hj Ht. destruct (lookup_lt_is_Some_2 l j Hj) as [v Hv].
  unfold at_ in Ht. rewrite (list_lookup_total_correct _ _ _ Hv) in Ht.
  congruence.
Qed.

(** The loop over the neighbors, given that the recursive calls it makes
    behave. *)
Lemma neighbor_loop_moves (fuel depth : nat)
    (recurse : nat -> State -> option State) :
  (forall idx st, length (is_valid st) = n ->
     count_valid (is_valid st) < fuel ->
     exists st', recurse idx st = Some st' /\
       moves 1 1 (S depth + count_valid (is_valid st)) st st') ->
  forall (ns : list nat) (st : State),
    Forall (fun j => j < n) ns ->
    length (is_valid st) = n ->
    count_valid (is_valid st) <= fuel ->
    exists st', for_each (visit_neighbor min_neighbors recurse) ns st = Some st' /\
      moves 0 0 (depth + count_valid (is_valid st)) st st'.
Proof.
  intros Hrec ns. induction ns as [|j ns IH]; intros st Hns Hlen Hcv.
  - exists st. split; [reflexivity|]. unfold moves. repeat split; lia.
  - apply Forall_cons in Hns as [Hj Hns']. cbn [for_each].
    unfold visit_neighbor at 1.
    destruct (at_ (is_valid st) j) eqn:Hvalid; cbn [negb].
    + set (st_a := set_count st j _).
      destruct (at_ (neighbor_count st_a) j <? min_neighbors)%Z.
      * apply at_valid_true in Hvalid; [|lia].
        pose proof (count_valid_insert_false _ _ Hvalid) as Hdrop.
        destruct (Hrec j (set_valid st_a j false)) as (st_c & -> & Hc).
        { cbn. rewrite length_insert. exact Hlen. }
        { cbn. lia. }
        destruct (IH st_c Hns') as (st' & -> & Hm).
        { destruct Hc as (Hl & _). rewrite Hl. cbn.
          rewrite length_insert. exact Hlen. }
        { destruct Hc as (_ & Hle & _). cbn in Hle. lia. }
        exists st'. split; [reflexivity|].
        unfold moves in *. cbn in Hc.
        rewrite length_insert in Hc. lia.
      * destruct (IH st_a Hns') as (st' & -> & Hm); [exact Hlen|exact Hcv|].
        exists st'. split; [reflexivity|]. exact Hm.
    + destruct (IH st Hns') as (st' & -> & Hm); auto.
      exists st'. split; [reflexivity|]. exact Hm.
Qed.

Lemma neighbors_lt (idx : nat) :
  Forall (fun j => j < n) (omap id (hoppings idx)).
Proof.
  apply Forall_forall. intros j Hj. apply list_elem_of_omap in Hj.
  destruct Hj as (o & Ho & Hid). simpl in Hid. subst o.
  exact (Hrange idx j Ho).
Qed.

(** One call of [clear_neighbors] with more fuel than valid sites. *)
Lemma clear_neighbors_moves (fuel : nat) :
  forall (depth idx : nat) (st : State),
    1 <= depth ->
    length (is_valid st) = n ->
    count_valid (is_valid st) < fuel ->
    exists st', clear_neighbors hoppings min_neighbors fuel depth idx st = Some st' /\
      moves 1 (if decide (depth = 1) then 0 else 1)
            (depth + count_valid (is_valid st)) st st'.
Proof.
  induction fuel as [|fuel IH]; intros depth idx st Hdepth Hlen Hcv; [lia|].
  cbn [clear_neighbors].
  set (st1 := enter st depth).
  destruct (at_ (neighbor_count st1) idx =? 0)%Z.
  - exists st1. split; [reflexivity|]. unfold moves. cbn.
    repeat split; destruct (decide (depth = 1)); lia.
  - unfold for_each_neighbour.
    destruct (neighbor_loop_moves fuel depth
                (clear_neighbors hoppings min_neighbors fuel (S depth)))
      with (ns := omap id (hoppings idx)) (st := st1)
      as (st2 & -> & Hm).
    + intros j st' Hl Hc.
      destruct (IH (S depth) j st' ltac:(lia) Hl Hc) as (r & Hr & Hmv).
      exists r. split; [exact Hr|].
      destruct (decide (S depth = 1)); [lia|exact Hmv].
    + apply neighbors_lt.
    + exact Hlen.
    + cbn. lia.
    + exists (set_count st2 idx 0). split; [reflexivity|].
      unfold moves in *. cbn in *.
      repeat split; destruct (decide (depth = 1)); lia.
Qed.

(** The loop of [remove_dangling] over the sites [xs]. *)
Lemma site_loop_moves (fuel : nat) (xs : list nat) :
  n <= fuel -> Forall (fun idx => idx < n) xs ->
  forall st, length (is_valid st) = n ->
    exists st',
      for_each (fun idx st =>
                  if negb (at_ (is_valid st) idx)
                  then clear_neighbors hoppings min_neighbors fuel 1 idx st
                  else Some st) xs st = Some st' /\
      length (is_valid st') = n /\
      count_valid (is_valid st') <= count_valid (is_valid st) /\
      calls st' + count_valid (is_valid st')
        <= calls st + count_valid (is_valid st) + length xs /\
      recursive_calls st' + count_valid (is_valid st')
        = recursive_calls st + count_valid (is_valid st) /\
      max_depth st' <= Nat.max (max_depth st) n.
Proof.
  intros Hfuel Hxs. induction Hxs as [|idx xs Hidx Hxs IH]; intros st Hlen.
  - exists st. cbn. repeat split; lia.
  - cbn [for_each].
    destruct (at_ (is_valid st) idx) eqn:Hvalid; cbn [negb].
    + destruct (IH st Hlen) as (st' & -> & Hl & Hle & Hc & Hr & Hd).
      exists st'. cbn. repeat split; lia.
    + apply at_valid_false in Hvalid; [|lia].
      pose proof (count_valid_lt_length _ _ Hvalid) as Hlt.
      destruct (clear_neighbors_moves fuel 1 idx st ltac:(lia) Hlen)
        as (st1 & -> & Hl1 & Hle1 & Hc1 & Hr1 & Hd1); [lia|].
      destruct (IH st1) as (st' & -> & Hl & Hle & Hc & Hr & Hd); [lia|].
      destruct (decide (1 = 1)); [|congruence].
      exists st'. cbn in *. repeat split; lia.
Qed.
End RemoveDanglingFacts.

Section RemoveDanglingFuel.
Import Foundation.
Variable hoppings : nat -> list (option nat).
Variable min_neighbors : Z.

Lemma for_each_mono {A S} (body body' : A -> S -> option S) (xs : list A) :
  (forall x s r, body x s = Some r -> body' x s = Some r) ->
  forall s r, for_each body xs s = Some r -> for_each body' xs s = Some r.
Proof.
  intros Hb. induction xs as [|x xs IH]; intros s r; cbn; [auto|].
  destruct (body x s) as [s'|] eqn:Hs; [|discriminate].
  rewrite (Hb _ _ _ Hs). apply IH.
Qed.

Lemma visit_neighbor_mono (recurse recurse' : nat -> State -> option State) :
  (forall j s r, recurse j s = Some r -> recurse' j s = Some r) ->
  forall j s r, visit_neighbor min_neighbors recurse j s = Some r ->
                visit_neighbor min_neighbors recurse' j s = Some r.
Proof.
  intros Hr j s r. unfold visit_neighbor.
  destruct (negb _); [auto|]. destruct (_ <? _)%Z; auto.
Qed.

(** More fuel never changes what a call returns. *)
Lemma clear_neighbors_fuel_mono (fuel fuel' : nat) :
  fuel <= fuel' ->
  forall depth idx st r,
    clear_neighbors hoppings min_neighbors fuel depth idx st = Some r ->
    clear_neighbors hoppings min_neighbors fuel' depth idx st = Some r.
Proof.
  revert fuel'. induction fuel as [|fuel IH]; intros fuel' Hle depth idx st r;
    [discriminate|].
  destruct fuel' as [|fuel']; [lia|]. cbn [clear_neighbors].
  destruct (_ =? 0)%Z; [auto|].
  unfold for_each_neighbour.
  destruct (for_each _ _ _) as [st2|] eqn:Hloop; [|discriminate].
  intros Heq.
  rewrite (for_each_mono _
             (visit_neighbor min_neighbors
                (clear_neighbors hoppings min_neighbors fuel' (S depth)))
             _ (visit_neighbor_mono _ _
                  (IH fuel' ltac:(lia) (S depth))) _ _ Hloop).
  exact Heq.
Qed.
End RemoveDanglingFuel.

Section RemoveDanglingTheorems.
Import Foundation.

(** C10, as amended: on every foundation whose validity array has one
    entry per site and whose neighbors are sites of the foundation, and
    for every [min_neighbors], [remove_dangling] returns: a nesting
    budget of [get_num_sites] calls is enough and a larger one gives the
    same state.  No call of [clear_neighbors] is nested deeper than the
    number of sites; the recursive calls are as many as the sites that
    were turned invalid, so at most the number of sites; counted with the
    calls made by the loop of [remove_dangling], the calls are at most
    the number of sites plus the number of recursive calls. *)
Theorem remove_dangling_terminates_within_site_bounds
    (hoppings : nat -> list (option nat)) (min_neighbors : Z)
    (foundation : Foundation) :
  neighbors_in_range hoppings (get_num_sites foundation) ->
  length (get_states foundation) = get_num_sites foundation ->
  exists st,
    (forall fuel, get_num_sites foundation <= fuel ->
       remove_dangling hoppings min_neighbors fuel foundation = Some st) /\
    max_depth st <= get_num_sites foundation /\
    recursive_calls st + count_valid (is_valid st)
      = count_valid (get_states foundation) /\
    recursive_calls st <= get_num_sites foundation /\
    calls st <= get_num_sites foundation + recursive_calls st /\
    calls st <= 2 * get_num_sites foundation.
Proof.
  intros Hrange Hlen. set (n := get_num_sites foundation) in *.
  destruct (site_loop_moves hoppings min_neighbors n Hrange n (seq 0 n))
    with (st := MkState (get_states foundation)
                        (count_neighbors hoppings foundation) 0 0 0)
    as (st & Hrun & Hl & Hle & Hc & Hr & Hd).
  { lia. }
  { apply Forall_forall. intros i Hi. apply elem_of_seq in Hi. lia. }
  { exact Hlen. }
  pose proof (count_valid_le_length (get_states foundation)) as Hcv.
  cbn in Hle, Hc, Hr, Hd. rewrite length_seq in Hc.
  exists st. split; [|repeat split; lia].
  intros fuel Hfuel. unfold remove_dangling. fold n.
  eapply for_each_mono; [|exact Hrun].
  intros idx s r. cbn beta.
  destruct (negb (at_ (is_valid s) idx)); [|auto].
  apply clear_neighbors_fuel_mono. exact Hfuel.
Qed.

(** On the chain of three sites of which only the middle one is invalid,
    with [min_neighbors = 1], [clear_neighbors] is entered four times:
    once for the middle site, once recursively for each end site, and once
    more by the loop for the last site, which the recursion has turned
    invalid. *)
Lemma remove_dangling_four_calls_on_three_sites :
  let foundation := MkFoundation 3 [true; false; true] in
  neighbors_in_range chain3 (get_num_sites foundation) /\
  length (get_states foundation) = get_num_sites foundation /\
  remove_dangling chain3 1 3 foundation
    = Some (MkState [false; false; false] [0; 0; 0]%Z 4 2 2) /\
  ~ calls_bounded_by_sites.
Proof.
  assert (Hrange : neighbors_in_range chain3 3).
  { intros idx j Hj. destruct idx as [|[|[|idx]]]; simpl in Hj;
      repeat (apply elem_of_cons in Hj as [Hj|Hj];
              [try discriminate; inversion Hj; lia|]);
      apply elem_of_nil in Hj; contradiction. }
  cbn zeta. split; [exact Hrange|]. split; [reflexivity|].
  split; [vm_compute; reflexivity|].
  intros Hclaim.
  specialize (Hclaim chain3 1%Z (MkFoundation 3 [true; false; true])
                (MkState [false; false; false] [0; 0; 0]%Z 4 2 2)
                Hrange eq_refl ltac:(vm_compute; reflexivity)).
  cbn in Hclaim. lia.
Qed.
End RemoveDanglingTheorems.

Lemma chain3_in_range : neighbors_in_range chain3 3.
Proof.
  intros idx j Hj. destruct idx as [|[|[|idx]]]; simpl in Hj;
    repeat (apply elem_of_cons in Hj as [Hj|Hj];
            [try discriminate; inversion Hj; lia|]);
    apply elem_of_nil in Hj; contradiction.
Qed.

(** The hypotheses of [hamiltonian_indices_enumerate_valid_sites] hold for
    a foundation of four sites of which the second is invalid. *)
Lemma hamiltonian_indices_enumerate_valid_sites_witness :
  let foundation := Foundation.MkFoundation 4 [true; false; true; true] in
  let h := Foundation.HamiltonianIndices_of foundation in
  Foundation.num_valid_sites h = 3%Z /\
  Foundation.indices h !! 1 = Some (-1)%Z /\
  Foundation.indices h !! 3 = Some 2%Z.
Proof.
  intros foundation h.
  destruct (hamiltonian_indices_enumerate_valid_sites foundation)
    as (_ & Hnum & Hvalid & Hinvalid & _).
  - reflexivity.
  - vm_compute. discriminate.
  - split; [exact Hnum|]. split.
    + apply Hinvalid. reflexivity.
    + apply (Hvalid 3). reflexivity.
Defined.

(** The hypotheses of [remove_dangling_terminates_within_site_bounds] hold
    for the chain of three sites with an invalid middle site. *)
Lemma remove_dangling_terminates_within_site_bounds_witness :
  let foundation := Foundation.MkFoundation 3 [true; false; true] in
  exists st,
    (forall fuel, 3 <= fuel ->
       Foundation.remove_dangling chain3 1 fuel foundation = Some st) /\
    Foundation.max_depth st <= 3 /\
    Foundation.recursive_calls st + count_valid (Foundation.is_valid st) = 2 /\
    Foundation.recursive_calls st <= 3 /\
    Foundation.calls st <= 3 + Foundation.recursive_calls st /\
    Foundation.calls st <= 6.
Proof.
  intros foundation.
  apply (remove_dangling_terminates_within_site_bounds chain3 1 foundation).
  - exact chain3_in_range.
  - reflexivity.
Defined.

(* ===================================================================== *)
(** * Properties of the KPM binding layer *)
(* ===================================================================== *)
Section ReachableSizes.
Import Kpm.
Variable m : Sparsity.
Hypothesis Hsquare : square m.

Lemma laid_out_length order : laid_out m order -> length order <= length m.
Proof.
  intros [Hnd Hlt].
  assert (order ⊆+ seq 0 (length m)) as Hsub.
  2: { apply submseteq_length in Hsub. rewrite length_seq in Hsub. exact Hsub. }
  apply NoDup_submseteq; [exact Hnd|].
  intros i Hi. apply elem_of_seq.
  rewrite Forall_forall in Hlt. specialize (Hlt i Hi). lia.
Qed.

Lemma discover_laid_out order col :
  col < length m -> laid_out m order ->
  laid_out m (discover order col) /\ length order <= length (discover order col).
Proof.
  intros Hcol [Hnd Hlt]. unfold discover. case_bool_decide as Hin.
  - split; [split; assumption|lia].
  - split; [split|].
    + apply NoDup_app. split; [exact Hnd|]. split.
      * intros x Hx Hx'. apply list_elem_of_singleton in Hx'. subst. auto.
      * apply NoDup_singleton.
    + apply Forall_app. split; [exact Hlt|]. apply Forall_singleton. exact Hcol.
    + rewrite length_app. simpl. lia.
Qed.

Lemma discover_row_laid_out (cols : list nat) :
  Forall (fun c => c < length m) cols ->
  forall order, laid_out m order ->
    laid_out m (fold_left discover cols order) /\
    length order <= length (fold_left discover cols order).
Proof.
  induction 1 as [|c cols Hc Hcols IH]; intros order Ho; simpl.
  - split; [exact Ho|lia].
  - destruct (discover_laid_out order c Hc Ho) as [Ho' Hle].
    destruct (IH _ Ho') as [Ho'' Hle']. split; [exact Ho''|lia].
Qed.

Lemma row_in_range (row : nat) :
  row < length m -> Forall (fun c => c < length m) (m !!! row).
Proof.
  intros Hrow. destruct (lookup_lt_is_Some_2 m row Hrow) as [cols Hcols].
  rewrite (list_lookup_total_correct _ _ _ Hcols).
  apply Forall_forall. intros c Hc.
  apply (Hsquare cols c); [|exact Hc].
  apply list_elem_of_lookup. eauto.
Qed.

Lemma discover_rows_laid_out (rs : list nat) :
  Forall (fun r => r < length m) rs ->
  forall order, laid_out m order ->
    laid_out m (fold_left (fun acc row => fold_left discover (m !!! row) acc)
                        rs order) /\
    length order
    <= length (fold_left (fun acc row => fold_left discover (m !!! row) acc)
                         rs order).
Proof.
  induction 1 as [|r rs Hr Hrs IH]; intros order Ho; simpl.
  - split; [exact Ho|lia].
  - destruct (discover_row_laid_out _ (row_in_range r Hr) order Ho)
      as [Ho' Hle].
    destruct (IH _ Ho') as [Ho'' Hle']. split; [exact Ho''|lia].
Qed.

Lemma next_shell_laid_out order :
  laid_out m order ->
  laid_out m (next_shell m order) /\
  length order <= length (next_shell m order).
Proof.
  intros Ho. unfold next_shell.
  apply discover_rows_laid_out; [apply Ho|exact Ho].
Qed.

Lemma reachable_sizes_between steps : forall order,
  laid_out m order ->
  Forall (fun a => length order <= a <= length m)
         (reachable_sizes m steps order).
Proof.
  induction steps as [|steps IH]; intros order Ho;
    pose proof (laid_out_length order Ho) as Hlen; simpl.
  - apply Forall_singleton. lia.
  - apply Forall_cons. split; [lia|].
    destruct (next_shell_laid_out order Ho) as [Ho' Hle].
    eapply Forall_impl; [apply (IH _ Ho')|]. simpl. intros a Ha. lia.
Qed.

Lemma reachable_sizes_mono steps : forall order,
  laid_out m order ->
  forall (j k : nat) a b, j <= k ->
    reachable_sizes m steps order !! j = Some a ->
    reachable_sizes m steps order !! k = Some b ->
    a <= b.
Proof.
  induction steps as [|steps IH]; intros order Ho j k a b Hjk Ha Hb.
  - destruct j as [|j], k as [|k]; simpl in Ha, Hb;
      try discriminate; try lia.
    inversion Ha; inversion Hb; lia.
  - destruct (next_shell_laid_out order Ho) as [Ho' Hle].
    destruct j as [|j], k as [|k]; simpl in Ha, Hb; try lia.
    + inversion Ha; inversion Hb; lia.
    + inversion Ha; subst a.
      pose proof (reachable_sizes_between steps _ Ho') as Hall.
      rewrite Forall_forall in Hall.
      assert (b ∈ reachable_sizes m steps (next_shell m order)) as Hin
        by (apply list_elem_of_lookup; eauto).
      specialize (Hall b Hin). simpl in Hall. lia.
    + apply (IH _ Ho' j k); auto. lia.
Qed.
End ReachableSizes.

Section SizesTheorems.
Import Kpm.

(** C7: for a square Hamiltonian and a seed index inside it, the sizes
    that [PyOptHam] exposes never decrease from one step to the next and
    none exceeds the dimension of the matrix. *)
Theorem optimized_sizes_monotone_and_bounded (h : Hamiltonian) (index : nat) :
  square (structure h) -> index < rows h ->
  let s := PyOptHam_sizes (PyOptHam_init h index) in
  (forall (j k : nat) a b, j <= k -> s !! j = Some a -> s !! k = Some b ->
     a <= b) /\
  Forall (fun a => a <= rows h) s.
Proof.
  intros Hsq Hidx s.
  assert (Hseed : laid_out (structure h) [index]).
  { split; [apply NoDup_singleton|]. apply Forall_singleton. exact Hidx. }
  subst s. unfold PyOptHam_sizes, PyOptHam_init, ReturnSizes, MakeOH,
    optimize_for, rows. cbn [oh sizes idx_row]. split.
  - apply (reachable_sizes_mono _ Hsq _ _ Hseed).
  - eapply Forall_impl; [apply (reachable_sizes_between _ Hsq _ _ Hseed)|].
    simpl. intros a Ha. lia.
Qed.
End SizesTheorems.

(** The hypotheses of [optimized_sizes_monotone_and_bounded] hold for the
    tridiagonal real matrix of a chain of four sites, seeded at site 0. *)
Lemma optimized_sizes_monotone_and_bounded_witness :
  let h := Kpm.MkHamiltonian ArrayRef.float [[0; 1]; [0; 1; 2]; [1; 2; 3]; [2; 3]] in
  let s := Kpm.PyOptHam_sizes (Kpm.PyOptHam_init h 0) in
  s = [1; 2; 3; 4; 4] /\
  (forall (j k : nat) a b, j <= k -> s !! j = Some a -> s !! k = Some b ->
     a <= b) /\
  Forall (fun a => a <= 4) s.
Proof.
  intros h s. split; [reflexivity|].
  apply (optimized_sizes_monotone_and_bounded h 0).
  - intros row col Hrow Hcol. simpl in *.
    repeat (apply elem_of_cons in Hrow as [->|Hrow];
            [repeat (apply elem_of_cons in Hcol as [->|Hcol]; [lia|]);
             apply elem_of_nil in Hcol; contradiction|]).
    apply elem_of_nil in Hrow. contradiction.
  - vm_compute. lia.
Defined.

Section EngineFacts.
Import Kpm.
Context {Matrix Bounds OptimizedState : Type}.
Variable estimate : Matrix -> Bounds.
Variable optimize : Matrix -> Bounds -> gset nat -> OptimizedState.

Lemma unbound_coherent :
  coherent estimate optimize (unbound (Bounds:=Bounds)).
Proof.
  split; cbn; [discriminate|]. intros seeds st Hst.
  rewrite lookup_empty in Hst. discriminate.
Qed.

Lemma set_model_coherent (m : Matrix) (e : Engine Matrix Bounds OptimizedState) :
  coherent estimate optimize (set_model m e).
Proof.
  split; cbn; [discriminate|]. intros seeds st Hst.
  rewrite lookup_empty in Hst. discriminate.
Qed.

(** A request on a coherent engine is answered as if nothing were
    cached, and leaves the engine coherent and bound as before. *)
Lemma optimized_for_coherent (seeds : gset nat)
    (e : Engine Matrix Bounds OptimizedState) :
  coherent estimate optimize e ->
  fst (optimized_for estimate optimize seeds e)
    = (fun m => optimize m (estimate m) seeds) <$> matrix e /\
  coherent estimate optimize (snd (optimized_for estimate optimize seeds e)) /\
  matrix (snd (optimized_for estimate optimize seeds e)) = matrix e.
Proof.
  intros He. pose proof He as [Hb Hc]. unfold optimized_for, get_bounds.
  destruct (matrix e) as [m|] eqn:Hm; [|cbn; rewrite Hm; auto].
  assert (Hbs : forall bs, bounds e = Some bs -> bs = estimate m).
  { intros bs Hbs. destruct (Hb bs Hbs) as (m' & Hm' & ->). congruence. }
  assert (Hst : forall k st, cache e !! k = Some st ->
            st = optimize m (estimate m) k).
  { intros k st Hk. destruct (Hc k st Hk) as (m' & Hm' & ->). congruence. }
  assert (Hins : forall k st, 
            <[seeds := optimize m (estimate m) seeds]> (cache e) !! k = Some st ->
            exists m', Some m = Some m' /\ st = optimize m' (estimate m') k).
  { intros k st Hk. exists m. split; [reflexivity|].
    destruct (decide (seeds = k)) as [->|Hne].
    - rewrite lookup_insert_eq in Hk. congruence.
    - rewrite lookup_insert_ne in Hk by assumption. auto. }
  destruct (bounds e) as [bs|] eqn:Hbse.
  - rewrite (Hbs bs eq_refl) in *.
    destruct (cache e !! seeds) as [st|] eqn:Hse; cbn; rewrite ?Hm, ?Hbse.
    + rewrite (Hst _ _ Hse). auto.
    + split; [reflexivity|]. split; [|reflexivity].
      split; cbn; [|exact Hins]. intros bs' [= <-]. eauto.
  - cbn. destruct (cache e !! seeds) as [st|] eqn:Hse; cbn; rewrite ?Hm.
    + rewrite (Hst _ _ Hse). split; [reflexivity|].
      split; [|reflexivity]. split; cbn.
      * intros bs' [= <-]. eauto.
      * intros k st' Hk. exists m. split; [reflexivity|]. auto.
    + split; [reflexivity|]. split; [|reflexivity].
      split; cbn; [|exact Hins]. intros bs' [= <-]. eauto.
Qed.

Lemma run_coherent (rs : list (Request Matrix)) :
  forall e : Engine Matrix Bounds OptimizedState,
    coherent estimate optimize e ->
    fst (run estimate optimize rs e)
      = run_uncached estimate optimize rs (matrix e).
Proof.
  induction rs as [|[m|seeds] rs IH]; intros e He; cbn.
  - reflexivity.
  - rewrite (IH _ (set_model_coherent m e)). reflexivity.
  - destruct (optimized_for_coherent seeds e He) as (Hout & He' & Hm').
    destruct (optimized_for estimate optimize seeds e) as [out e'].
    cbn in Hout, He', Hm'. specialize (IH e' He').
    destruct (run estimate optimize rs e') as [outs e''].
    cbn in *. rewrite Hout, IH, Hm'. reflexivity.
Qed.

(** C6: whatever the engine holds, setting the matrix leaves it with no
    cached bounds and no cached optimized state; the next request builds
    its state from the new matrix (the count of built states goes up by
    one) instead of being served from the cache; and over a whole
    session, from the unbound engine on, every request is answered with
    the state computed from the matrix bound at that moment. *)
Theorem set_model_invalidates_cached_states
    (e : Engine Matrix Bounds OptimizedState) (m : Matrix)
    (seeds : gset nat) (rs : list (Request Matrix)) :
  bounds (set_model m e) = None /\
  cache (set_model m e) = ∅ /\
  matrix (set_model m e) = Some m /\
  fst (optimized_for estimate optimize seeds (set_model m e))
    = Some (optimize m (estimate m) seeds) /\
  num_built (snd (optimized_for estimate optimize seeds (set_model m e)))
    = S (num_built e) /\
  fst (run estimate optimize rs unbound)
    = run_uncached estimate optimize rs None.
Proof.
  repeat split.
  apply (run_coherent rs unbound unbound_coherent).
Qed.
End EngineFacts.

Section DeferredTheorems.
Import Kpm.
Variables KPM Model ArrayXd Cartesian Real : Type.
Variable calc_ldos :
  KPM -> ArrayXd -> Real -> Cartesian -> string -> ArrayXd * KPM.
Variable set_model : KPM -> Model -> KPM.

(** C2, as amended: a deferred request holds copies of its four
    arguments and a reference to the engine.  Whenever it is run it
    returns what the method [calc_ldos] returns on the engine as it is
    at that moment: the same as an immediate call when the engine was
    not touched in between, and the result for the new model when the
    model was replaced. *)
Theorem deferred_ldos_runs_on_engine_at_execution
    (self : nat) (energy : ArrayXd) (broadening : Real)
    (position : Cartesian) (sublattice : string)
    (heap : gmap nat KPM) (d : Deferred KPM ArrayXd) :
  deferred_ldos KPM ArrayXd Cartesian Real calc_ldos self energy broadening
    position sublattice heap = Ok d ->
  keep_alive d = self /\
  (forall heap',
     compute d heap'
     = py_calc_ldos KPM ArrayXd Cartesian Real calc_ldos self energy
         broadening position sublattice heap') /\
  (forall model, exists kpm heap2,
     heap !! self = Some kpm /\
     py_set_model KPM Model set_model self model heap = Ok heap2 /\
     compute d heap2
     = Ok (fst (calc_ldos (set_model kpm model) energy broadening
                          position sublattice),
           <[self := snd (calc_ldos (set_model kpm model) energy broadening
                                    position sublattice)]> heap2)).
Proof.
  unfold deferred_ldos, cast.
  destruct (heap !! self) as [kpm|] eqn:Hself; [|discriminate].
  intros [= <-]. cbn [keep_alive compute].
  split; [reflexivity|]. split; [reflexivity|].
  intros model. exists kpm, (<[self := set_model kpm model]> heap).
  split; [reflexivity|]. split.
  - unfold py_set_model, cast. rewrite Hself. reflexivity.
  - unfold py_calc_ldos, cast. rewrite lookup_insert_eq.
    destruct (calc_ldos _ _ _ _ _). reflexivity.
Qed.
End DeferredTheorems.

(** A request deferred on a one-site engine bound to the model 1 and run
    after the model was replaced by 2 returns the LDOS of the model 2, not
    the LDOS of the model 1 that an immediate call returned. *)
Lemma deferred_ldos_sees_replaced_model :
  let heap : gmap nat (Kpm.Engine Z Z Z) :=
    {[ 0 := Kpm.set_model 1%Z Kpm.unbound ]} in
  exists d heap1 heap2 heap3,
    Kpm.deferred_ldos _ _ _ _ one_site_ldos 0 [] 0%Z 0%Z "A" heap = Ok d /\
    Kpm.py_calc_ldos _ _ _ _ one_site_ldos 0 [] 0%Z 0%Z "A" heap
      = Ok ([1%Z], heap1) /\
    Kpm.py_set_model _ _ one_site_set_model 0 2%Z heap = Ok heap2 /\
    Kpm.compute d heap2 = Ok ([2%Z], heap3) /\
    ~ deferred_is_snapshot.
Proof.
  intros heap.
  assert (Hd : Kpm.deferred_ldos _ _ _ _ one_site_ldos 0 [] 0%Z 0%Z "A" heap
               = Ok (Kpm.MkDeferred _ _ 0
                       (Kpm.py_calc_ldos _ _ _ _ one_site_ldos 0 [] 0%Z 0%Z "A")))
    by reflexivity.
  assert (Hnow : exists heap1,
            Kpm.py_calc_ldos _ _ _ _ one_site_ldos 0 [] 0%Z 0%Z "A" heap
            = Ok ([1%Z], heap1)) by (eexists; reflexivity).
  assert (Hset : exists heap2,
            Kpm.py_set_model _ _ one_site_set_model 0 2%Z heap = Ok heap2 /\
            exists heap3,
              Kpm.py_calc_ldos _ _ _ _ one_site_ldos 0 [] 0%Z 0%Z "A" heap2
              = Ok ([2%Z], heap3))
    by (eexists; split; [reflexivity|eexists; reflexivity]).
  destruct Hnow as (heap1 & Hnow), Hset as (heap2 & Hset & heap3 & Hlater).
  eexists _, heap1, heap2, heap3.
  split; [exact Hd|]. split; [exact Hnow|]. split; [exact Hset|].
  split; [exact Hlater|].
  intros Hclaim.
  specialize (Hclaim _ _ _ _ _ one_site_ldos one_site_set_model 0 [] 0%Z 0%Z
                "A" heap heap1 heap2 heap3 _ 2%Z [1%Z] [2%Z]
                Hd Hnow Hset Hlater).
  discriminate.
Qed.

(** The hypothesis of [deferred_ldos_runs_on_engine_at_execution] holds for
    a request deferred on a bound one-site engine. *)
Lemma deferred_ldos_runs_on_engine_at_execution_witness :
  let heap : gmap nat (Kpm.Engine Z Z Z) :=
    {[ 0 := Kpm.set_model 1%Z Kpm.unbound ]} in
  let d := Kpm.MkDeferred _ _ 0
             (Kpm.py_calc_ldos _ _ _ _ one_site_ldos 0 [] 0%Z 0%Z "A") in
  Kpm.keep_alive d = 0 /\
  forall heap',
    Kpm.compute d heap'
    = Kpm.py_calc_ldos _ _ _ _ one_site_ldos 0 [] 0%Z 0%Z "A" heap'.
Proof.
  intros heap d.
  destruct (deferred_ldos_runs_on_engine_at_execution _ Z _ _ _
              one_site_ldos one_site_set_model 0 [] 0%Z 0%Z "A" heap d)
    as (Hk & Hrun & _).
  - reflexivity.
  - split; [exact Hk|exact Hrun].
Defined.

(* ===================================================================== *)
(** * Worked examples *)
(* ===================================================================== *)

(** An [int32] index array is not accepted as a complex array. *)
Example complex_array_rejects_int32 :
  ArrayRef.ComplexArrayRef (ArrayRef.arrayref ArrayRef.i32 4096 8)
  = Throw "Invalid VariantArrayRef assignment".
Proof. reflexivity. Qed.

(** A [complex<float>] view is the third candidate of a complex array. *)
Example match_complex_float :
  ArrayRef.match_ (W:=unit) (fun _ => Z) (fun _ r => ArrayRef.cols r)
    (ArrayRef.MkVariant ArrayRef.float
       [ArrayRef.double; ArrayRef.complex_float; ArrayRef.complex_double]
       (ArrayRef.arrayref (c:=false) ArrayRef.cf32 4096 8))
    (fun s size w => ((s, size), w)) tt
  = Ok ((ArrayRef.complex_float, 8%Z), tt).
Proof. reflexivity. Qed.

(** The same-precision candidates of two complex arrays. *)
Example same_precision_pairs :
  let complex := [ArrayRef.float; ArrayRef.double; ArrayRef.complex_float;
                  ArrayRef.complex_double] in
  length (ArrayRef.Combinations complex complex) = 16 /\
  ArrayRef.Filter (ArrayRef.Combinations complex complex)
                  ArrayRef.IsSamePrecision
  = [(ArrayRef.float, ArrayRef.float); (ArrayRef.float, ArrayRef.complex_float);
     (ArrayRef.double, ArrayRef.double); (ArrayRef.double, ArrayRef.complex_double);
     (ArrayRef.complex_float, ArrayRef.float);
     (ArrayRef.complex_float, ArrayRef.complex_float);
     (ArrayRef.complex_double, ArrayRef.double);
     (ArrayRef.complex_double, ArrayRef.complex_double)].
Proof. split; reflexivity. Qed.

(** Four sites, the second one invalid. *)
Example hamiltonian_indices_of_four_sites :
  Foundation.HamiltonianIndices_of
    (Foundation.MkFoundation 4 [true; false; true; true])
  = Foundation.MkIndices [0; -1; 1; 2]%Z 3.
Proof. reflexivity. Qed.

(** The neighbor counts of the chain of three sites: the end sites lose
    the hopping that leaves the foundation. *)
Example count_neighbors_chain3 :
  Foundation.count_neighbors chain3
    (Foundation.MkFoundation 3 [true; false; true])
  = [1; 2; 1]%Z.
Proof. reflexivity. Qed.

(** With [min_neighbors = 1] and all sites valid nothing is removed and
    [clear_neighbors] is never entered. *)
Example remove_dangling_all_valid :
  Foundation.remove_dangling chain3 1 3
    (Foundation.MkFoundation 3 [true; true; true])
  = Some (Foundation.MkState [true; true; true] [1; 2; 1]%Z 0 0 0).
Proof. reflexivity. Qed.

(** With [min_neighbors = 2] and the first site invalid the whole chain is
    removed by a recursion two calls deep below the call of the loop. *)
Example remove_dangling_cascade :
  Foundation.remove_dangling chain3 2 3
    (Foundation.MkFoundation 3 [false; true; true])
  = Some (Foundation.MkState [false; false; false] [0; 0; 0]%Z 5 2 3).
Proof. vm_compute. reflexivity. Qed.

(** A cache hit does not build: two requests for the same seeds on a
    bound engine build one state. *)
Example second_request_is_served_from_cache :
  let e0 := Kpm.set_model 7%Z (Kpm.unbound (Bounds:=Z) (OptimizedState:=Z)) in
  let '(_, e1) := Kpm.optimized_for (fun m => m) (fun m _ _ => m) {[0]} e0 in
  let '(out, e2) := Kpm.optimized_for (fun m => m) (fun m _ _ => m) {[0]} e1 in
  out = Some 7%Z /\ Kpm.num_built e1 = 1 /\ Kpm.num_built e2 = 1.
Proof. vm_compute. auto. Qed.

(* ===================================================================== *)
(** * Further properties of the scalar dispatch *)
(* ===================================================================== *)
Section TagFacts.
Import ArrayRef.

Lemma scalar_of_get_tag (s : Scalar) : scalar_of_tag (get_tag s) = s.
Proof. destruct s; reflexivity. Qed.

Lemma get_tag_of_scalar (t : Tag) : get_tag (scalar_of_tag t) = t.
Proof. destruct t; reflexivity. Qed.

Lemma get_tag_inj (s s' : Scalar) : get_tag s = get_tag s' -> s = s'.
Proof.
  intros H. rewrite <- (scalar_of_get_tag s), H. apply scalar_of_get_tag.
Qed.

Lemma tag_declared_iff (types : list Scalar) (t : Tag) :
  t ∈ map get_tag types <-> scalar_of_tag t ∈ types.
Proof.
  rewrite list_elem_of_fmap. split.
  - intros (s & -> & Hs). rewrite scalar_of_get_tag. exact Hs.
  - intros Hs. exists (scalar_of_tag t). split; [|exact Hs].
    symmetry. apply get_tag_of_scalar.
Qed.
End TagFacts.

Section DispatchByTag.
Import ArrayRef.
Context {c1 c2 : bool} {W Result : Type}.
Variable Container1 Container2 : Scalar -> Type.
Variable make1 : forall s, BasicArrayRef c1 -> Container1 s.
Variable make2 : forall s, BasicArrayRef c2 -> Container2 s.

(** What [try_match] returns is settled by the tag and by whether its type
    is a candidate at all. *)
Lemma try_match_by_tag (ref : Variant c1)
    (lambda : Function1 (W:=W) (Result:=Result) Container1)
    (types : list Scalar) (w : W) :
  try_match Container1 make1 ref lambda types w
  = if bool_decide (scalar_of_tag (tag (base ref)) ∈ types)
    then Ok (lambda (scalar_of_tag (tag (base ref)))
                    (make1 (scalar_of_tag (tag (base ref))) (base ref)) w)
    else Throw "A match was not found".
Proof.
  destruct (try_match_outcome Container1 make1 ref lambda types w)
    as [pre s post -> Hs Hpre Hon | Hall Hmiss].
  - unfold hits in Hs. rewrite Hon, Hs, scalar_of_get_tag.
    rewrite bool_decide_eq_true_2; [reflexivity|].
    apply elem_of_app. right. left.
  - rewrite Hmiss, bool_decide_eq_false_2; [reflexivity|].
    intros Hin. rewrite Forall_forall in Hall.
    apply (Hall _ Hin). unfold hits. symmetry. apply get_tag_of_scalar.
Qed.

Lemma try_match2_by_tag (ref1 : Variant c1) (ref2 : Variant c2)
    (lambda : Function2 (W:=W) (Result:=Result) Container1 Container2)
    (pairs : list (Scalar * Scalar)) (w : W) :
  try_match2 Container1 Container2 make1 make2 ref1 ref2 lambda pairs w
  = if bool_decide ((scalar_of_tag (tag (base ref1)),
                     scalar_of_tag (tag (base ref2))) ∈ pairs)
    then Ok (lambda (scalar_of_tag (tag (base ref1)))
                    (scalar_of_tag (tag (base ref2)))
                    (make1 (scalar_of_tag (tag (base ref1))) (base ref1))
                    (make2 (scalar_of_tag (tag (base ref2))) (base ref2)) w)
    else Throw "A match was not found".
Proof.
  destruct (try_match2_outcome Container1 Container2 make1 make2 ref1 ref2
              lambda pairs w)
    as [pre [s1 s2] post -> [Hs1 Hs2] Hpre Hon | Hall Hmiss].
  - simpl in Hs1, Hs2, Hon. rewrite Hon, Hs1, Hs2, !scalar_of_get_tag.
    rewrite bool_decide_eq_true_2; [reflexivity|].
    apply elem_of_app. right. left.
  - rewrite Hmiss, bool_decide_eq_false_2; [reflexivity|].
    intros Hin. rewrite Forall_forall in Hall.
    apply (Hall _ Hin). split; simpl; symmetry; apply get_tag_of_scalar.
Qed.

(** X1: no two scalar types share a tag, so the candidate that [try_match]
    picks does not depend on where it stands: two type lists with the same
    members, in any order and with any repetitions, give the same result,
    which is the operation applied for the one scalar type of the tag when
    that type is a member and the no-match error otherwise. *)
Theorem try_match_independent_of_list_order (ref : Variant c1)
    (lambda : Function1 (W:=W) (Result:=Result) Container1)
    (types types' : list Scalar) (w : W) :
  (forall s, s ∈ types <-> s ∈ types') ->
  try_match Container1 make1 ref lambda types w
  = try_match Container1 make1 ref lambda types' w /\
  (tag (base ref) ∈ map get_tag types ->
   try_match Container1 make1 ref lambda types w
   = Ok (lambda (scalar_of_tag (tag (base ref)))
                (make1 (scalar_of_tag (tag (base ref))) (base ref)) w)).
Proof.
  intros Hsame. rewrite !try_match_by_tag. split.
  - rewrite (bool_decide_ext _ _ (Hsame _)). reflexivity.
  - intros Hin. apply tag_declared_iff in Hin.
    rewrite bool_decide_eq_true_2 by exact Hin. reflexivity.
Qed.

(** X2: the same for pairs: [try_match2] gives the same result on two pair
    lists with the same members, so the result of [match2] and [match2sp]
    does not depend on the order in which the product of the two type
    lists is enumerated. *)
Theorem try_match2_independent_of_list_order
    (ref1 : Variant c1) (ref2 : Variant c2)
    (lambda : Function2 (W:=W) (Result:=Result) Container1 Container2)
    (pairs pairs' : list (Scalar * Scalar)) (w : W) :
  (forall p, p ∈ pairs <-> p ∈ pairs') ->
  try_match2 Container1 Container2 make1 make2 ref1 ref2 lambda pairs w
  = try_match2 Container1 Container2 make1 make2 ref1 ref2 lambda pairs' w.
Proof.
  intros Hsame. rewrite !try_match2_by_tag.
  rewrite (bool_decide_ext _ _ (Hsame _)). reflexivity.
Qed.
End DispatchByTag.

Section ConstructedViews.
Import ArrayRef.

Lemma VariantArrayRef_Ok (S0 : Scalar) (Scalars : list Scalar)
    (a : ArrayRef) (v : Variant false) :
  VariantArrayRef S0 Scalars a = Ok v <->
  v = MkVariant S0 Scalars a /\ tag a ∈ map get_tag (S0 :: Scalars).
Proof.
  unfold VariantArrayRef.
  change (get_tag S0 :: map get_tag Scalars) with (map get_tag (S0 :: Scalars)).
  rewrite none_of_tags. case_bool_decide as Hin; simpl.
  - split; [intros [= <-]; auto | intros [-> _]; reflexivity].
  - split; [discriminate | intros [_ Hin']; contradiction].
Qed.

Lemma VariantArrayConstRef_Ok (S0 : Scalar) (Scalars : list Scalar)
    (a : ArrayConstRef) (v : Variant true) :
  VariantArrayConstRef S0 Scalars a = Ok v <->
  v = MkVariant S0 Scalars a /\ tag a ∈ map get_tag (S0 :: Scalars).
Proof.
  unfold VariantArrayConstRef.
  change (get_tag S0 :: map get_tag Scalars) with (map get_tag (S0 :: Scalars)).
  rewrite none_of_tags. case_bool_decide as Hin; simpl.
  - split; [intros [= <-]; auto | intros [-> _]; reflexivity].
  - split; [discriminate | intros [_ Hin']; contradiction].
Qed.

(** X3: a view that one of the checking constructors returned can always
    be matched: [match] on it never ends in the no-match error and runs the
    operation for the scalar type of the source's tag, on the source's
    data. *)
Theorem constructed_view_always_matches
    {W Result : Type} (S0 : Scalar) (Scalars : list Scalar) :
  (forall (a : ArrayRef) (v : Variant false),
     VariantArrayRef S0 Scalars a = Ok v ->
     well_tagged v /\
     forall (C : Scalar -> Type) (mk : forall s, ArrayRef -> C s)
            (lambda : Function1 (W:=W) (Result:=Result) C) (w : W),
       match_ C mk v lambda w
       = Ok (lambda (scalar_of_tag (tag a)) (mk (scalar_of_tag (tag a)) a) w)) /\
  (forall (a : ArrayConstRef) (v : Variant true),
     VariantArrayConstRef S0 Scalars a = Ok v ->
     well_tagged v /\
     forall (C : Scalar -> Type) (mk : forall s, ArrayConstRef -> C s)
            (lambda : Function1 (W:=W) (Result:=Result) C) (w : W),
       match_ C mk v lambda w
       = Ok (lambda (scalar_of_tag (tag a)) (mk (scalar_of_tag (tag a)) a) w)).
Proof.
  split; intros a v Hv.
  - apply VariantArrayRef_Ok in Hv as [-> Hin]. split; [exact Hin|].
    intros C mk lambda w. unfold match_. rewrite try_match_by_tag.
    cbn [base Types First Rest].
    rewrite bool_decide_eq_true_2 by (apply tag_declared_iff; exact Hin).
    reflexivity.
  - apply VariantArrayConstRef_Ok in Hv as [-> Hin]. split; [exact Hin|].
    intros C mk lambda w. unfold match_. rewrite try_match_by_tag.
    cbn [base Types First Rest].
    rewrite bool_decide_eq_true_2 by (apply tag_declared_iff; exact Hin).
    reflexivity.
Qed.

(** X7: a view type with more scalar types accepts whatever a view type
    with fewer accepts (so a real array can be passed where a complex
    array is expected), and the conversion from a mutable reference to a
    read-only view accepts exactly the references that the mutable view
    accepts. *)
Theorem wider_variant_accepts_more
    (S0 S0' : Scalar) (Scalars Scalars' : list Scalar)
    (a : ArrayRef) (other : ArrayConstRef) :
  (forall s, s ∈ S0 :: Scalars -> s ∈ S0' :: Scalars') ->
  (forall v, VariantArrayRef S0 Scalars a = Ok v ->
     VariantArrayRef S0' Scalars' a = Ok (MkVariant S0' Scalars' a)) /\
  (forall v, VariantArrayConstRef S0 Scalars other = Ok v ->
     VariantArrayConstRef S0' Scalars' other
     = Ok (MkVariant S0' Scalars' other)) /\
  ((exists v, VariantArrayConstRef_of_mutable S0 Scalars a = Ok v) <->
   (exists v, VariantArrayRef S0 Scalars a = Ok v)).
Proof.
  intros Hsub.
  assert (Hmono : forall t : Tag,
            t ∈ map get_tag (S0 :: Scalars) -> t ∈ map get_tag (S0' :: Scalars')).
  { intros t Ht. apply tag_declared_iff. apply Hsub.
    apply tag_declared_iff. exact Ht. }
  split; [|split].
  - intros v Hv. apply VariantArrayRef_Ok in Hv as [_ Hin].
    apply VariantArrayRef_Ok. auto.
  - intros v Hv. apply VariantArrayConstRef_Ok in Hv as [_ Hin].
    apply VariantArrayConstRef_Ok. auto.
  - unfold VariantArrayConstRef_of_mutable. split.
    + intros [v Hv]. apply VariantArrayConstRef_Ok in Hv as [_ Hin].
      cbn [tag] in Hin. eexists. apply VariantArrayRef_Ok. eauto.
    + intros [v Hv]. apply VariantArrayRef_Ok in Hv as [_ Hin].
      eexists. apply VariantArrayConstRef_Ok. split; [reflexivity|exact Hin].
Qed.

(** X8: the typed [arrayref] of an element type is a row-major 1 x size
    reference; a view type accepts it exactly when the element type is one
    of its scalar types, and [match] on the accepted view runs the
    operation for that element type. *)
Theorem typed_arrayref_dispatches_on_element_type
    {W Result : Type} (scalar_t S0 : Scalar) (Scalars : list Scalar)
    (data size : Z) :
  let a : ArrayRef := ArrayRefTyped.arrayref scalar_t data size in
  rows a = 1%Z /\ cols a = size /\ is_row_major a = true /\
  ((exists v, VariantArrayRef S0 Scalars a = Ok v) <->
   scalar_t ∈ S0 :: Scalars) /\
  forall v, VariantArrayRef S0 Scalars a = Ok v ->
    forall (C : Scalar -> Type) (mk : forall s, ArrayRef -> C s)
           (lambda : Function1 (W:=W) (Result:=Result) C) (w : W),
      match_ C mk v lambda w = Ok (lambda scalar_t (mk scalar_t a) w).
Proof.
  intros a. split; [reflexivity|]. split; [reflexivity|].
  split; [reflexivity|]. split.
  - split.
    + intros [v Hv]. apply VariantArrayRef_Ok in Hv as [_ Hin].
      apply tag_declared_iff in Hin. cbn [a ArrayRefTyped.arrayref tag] in Hin.
      rewrite scalar_of_get_tag in Hin. exact Hin.
    + intros Hin. eexists. apply VariantArrayRef_Ok. split; [reflexivity|].
      apply tag_declared_iff. cbn [a ArrayRefTyped.arrayref tag].
      rewrite scalar_of_get_tag. exact Hin.
  - intros v Hv C mk lambda w.
    apply VariantArrayRef_Ok in Hv as [-> Hin].
    unfold match_. rewrite try_match_by_tag. cbn [base Types First Rest].
    rewrite bool_decide_eq_true_2 by (apply tag_declared_iff; exact Hin).
    cbn [a ArrayRefTyped.arrayref tag]. rewrite scalar_of_get_tag. reflexivity.
Qed.
End ConstructedViews.

Section PairsByTag.
Import ArrayRef.
Context {c1 c2 : bool} {W Result : Type}.
Variable Container1 Container2 : Scalar -> Type.
Variable make1 : forall s, BasicArrayRef c1 -> Container1 s.
Variable make2 : forall s, BasicArrayRef c2 -> Container2 s.

Lemma match2_by_tag (ref1 : Variant c1) (ref2 : Variant c2)
    (lambda : Function2 (W:=W) (Result:=Result) Container1 Container2)
    (w : W) :
  well_tagged ref1 -> well_tagged ref2 ->
  (scalar_of_tag (tag (base ref1)), scalar_of_tag (tag (base ref2)))
    ∈ Combinations (Types ref1) (Types ref2) /\
  match2 Container1 Container2 make1 make2 ref1 ref2 lambda w
  = Ok (lambda (scalar_of_tag (tag (base ref1)))
               (scalar_of_tag (tag (base ref2)))
               (make1 (scalar_of_tag (tag (base ref1))) (base ref1))
               (make2 (scalar_of_tag (tag (base ref2))) (base ref2)) w).
Proof.
  intros H1 H2.
  assert (Hin : (scalar_of_tag (tag (base ref1)),
                 scalar_of_tag (tag (base ref2)))
                ∈ Combinations (Types ref1) (Types ref2)).
  { apply Combinations_elem. split; apply tag_declared_iff; assumption. }
  split; [exact Hin|].
  unfold match2. rewrite try_match2_by_tag.
  rewrite bool_decide_eq_true_2 by exact Hin. reflexivity.
Qed.

(** X4: on two views that each carry the tag of one of their declared
    types, as every constructed view does, [match2] never ends in the
    no-match error: it runs the operation for the two scalar types of the
    two tags. *)
Theorem match2_total_on_well_tagged_views
    (ref1 : Variant c1) (ref2 : Variant c2)
    (lambda : Function2 (W:=W) (Result:=Result) Container1 Container2)
    (w : W) :
  well_tagged ref1 -> well_tagged ref2 ->
  match2 Container1 Container2 make1 make2 ref1 ref2 lambda w
  = Ok (lambda (scalar_of_tag (tag (base ref1)))
               (scalar_of_tag (tag (base ref2)))
               (make1 (scalar_of_tag (tag (base ref1))) (base ref1))
               (make2 (scalar_of_tag (tag (base ref2))) (base ref2)) w).
Proof.
  intros H1 H2. apply (match2_by_tag ref1 ref2 lambda w H1 H2).
Qed.

(** X5: [match2sp] only ever restricts [match2]: whenever [match2sp]
    returns a result, [match2] on the same arguments returns the same
    result. *)
Theorem match2sp_result_is_match2_result
    (ref1 : Variant c1) (ref2 : Variant c2)
    (lambda : Function2 (W:=W) (Result:=Result) Container1 Container2)
    (w : W) (r : Result * W) :
  match2sp Container1 Container2 make1 make2 ref1 ref2 lambda w = Ok r ->
  match2 Container1 Container2 make1 make2 ref1 ref2 lambda w = Ok r.
Proof.
  unfold match2sp, match2. rewrite !try_match2_by_tag.
  case_bool_decide as Hsp; [|discriminate].
  apply Filter_elem in Hsp as [Hin _].
  rewrite bool_decide_eq_true_2 by exact Hin. auto.
Qed.

(** X6: on two well-tagged views [match2sp] ends in the no-match error
    exactly when the scalar types of the two tags have different real
    types (float against double); otherwise it returns what [match2]
    returns. *)
Theorem match2sp_throws_iff_mixed_precision
    (ref1 : Variant c1) (ref2 : Variant c2)
    (lambda : Function2 (W:=W) (Result:=Result) Container1 Container2)
    (w : W) :
  well_tagged ref1 -> well_tagged ref2 ->
  match2sp Container1 Container2 make1 make2 ref1 ref2 lambda w
  = if bool_decide (get_real_t (scalar_of_tag (tag (base ref1)))
                    = get_real_t (scalar_of_tag (tag (base ref2))))
    then match2 Container1 Container2 make1 make2 ref1 ref2 lambda w
    else Throw "A match was not found".
Proof.
  intros H1 H2.
  destruct (match2_by_tag ref1 ref2 lambda w H1 H2) as [Hin ->].
  unfold match2sp. rewrite try_match2_by_tag.
  destruct (decide (get_real_t (scalar_of_tag (tag (base ref1)))
                    = get_real_t (scalar_of_tag (tag (base ref2)))))
    as [Hsp|Hsp].
  - rewrite (bool_decide_eq_true_2 _ Hsp).
    rewrite bool_decide_eq_true_2; [reflexivity|].
    apply Filter_elem. split; [exact Hin|].
    unfold IsSamePrecision. apply bool_decide_eq_true_2. exact Hsp.
  - rewrite (bool_decide_eq_false_2 _ Hsp).
    rewrite bool_decide_eq_false_2; [reflexivity|].
    intros Hf. apply Filter_elem in Hf as [_ Hf].
    unfold IsSamePrecision in Hf. apply bool_decide_eq_true_1 in Hf.
    contradiction.
Qed.
End PairsByTag.

(* ===================================================================== *)
(** * Further properties of the foundation *)
(* ===================================================================== *)
Section CountNeighborsFacts.
Import Foundation.
Variable hoppings : nat -> list (option nat).
Local Open Scope Z_scope.

Lemma int16_small z : - 2 ^ 15 <= z < 2 ^ 15 -> int16 z = z.
Proof.
  intros Hz. unfold int16, wrap.
  change (2 ^ (16 - 1)) with (2 ^ 15). change (2 ^ 16) with (2 * 2 ^ 15).
  rewrite Z.mod_small; lia.
Qed.

Lemma omap_id_length (hs : list (option nat)) :
  (length (omap id hs) <= length hs)%nat.
Proof. induction hs as [|[j|] hs IH]; cbn [omap list_omap id length]; lia. Qed.

(** The inner loop of [count_neighbors]: one is taken off for every hopping
    that leaves the foundation. *)
Lemma edge_reduction (hs : list (option nat)) : forall acc : Z,
  Z.of_nat (length hs) - Z.of_nat (length (omap id hs)) <= acc < 2 ^ 15 ->
  fold_left (fun num_neighbors (hopping : option nat) =>
               match hopping with
               | None => int16 (num_neighbors - 1)
               | Some _ => num_neighbors
               end) hs acc
  = acc - (Z.of_nat (length hs) - Z.of_nat (length (omap id hs))).
Proof.
  induction hs as [|[j|] hs IH]; intros acc Hacc;
    cbn [fold_left]; cbn [omap list_omap id length] in *.
  - lia.
  - rewrite IH by lia. lia.
  - pose proof (omap_id_length hs).
    rewrite int16_small by lia. rewrite IH by lia. lia.
Qed.

(** X9: [count_neighbors] returns one count per site, and for a site with
    fewer than 2^15 hoppings the count is the number of neighbors that
    [for_each_neighbour] visits, that is the hoppings that stay inside the
    foundation. *)
Theorem count_neighbors_is_number_of_visited_neighbors
    (foundation : Foundation) (idx : nat) :
  (idx < get_num_sites foundation)%nat ->
  Z.of_nat (length (hoppings idx)) < 2 ^ 15 ->
  length (count_neighbors hoppings foundation) = get_num_sites foundation /\
  exists visited : nat,
    for_each_neighbour hoppings idx (fun _ k => Some (S k)) 0%nat
      = Some visited /\
    (visited <= length (hoppings idx))%nat /\
    count_neighbors hoppings foundation !! idx = Some (Z.of_nat visited).
Proof.
  intros Hidx Hlen. unfold count_neighbors. split.
  - rewrite length_map, length_seq. reflexivity.
  - exists (length (omap id (hoppings idx))).
    pose proof (omap_id_length (hoppings idx)) as Hle. split; [|split].
    + unfold for_each_neighbour.
      assert (Hcount : forall (ns : list nat) (k : nat),
                for_each (fun (_ : nat) k => Some (S k)) ns k
                = Some (k + length ns)%nat).
      { induction ns as [|x ns IH]; intros k; simpl.
        - f_equal. lia.
        - rewrite IH. f_equal. lia. }
      rewrite Hcount. reflexivity.
    + exact Hle.
    + change (map ?f ?l) with (f <$> l).
      rewrite list_lookup_fmap, lookup_seq_lt by lia. cbn [fmap option_fmap option_map].
      f_equal. change (0 + idx)%nat with idx.
      rewrite int16_small by lia. rewrite edge_reduction by lia. lia.
Qed.
End CountNeighborsFacts.

Section OnlyRemoves.
Import Foundation.
Variable hoppings : nat -> list (option nat).
Variable min_neighbors : Z.

Lemma shrinks_refl st : shrinks st st.
Proof. unfold shrinks. auto. Qed.

Lemma shrinks_trans st1 st2 st3 :
  shrinks st1 st2 -> shrinks st2 st3 -> shrinks st1 st3.
Proof.
  intros (Hl & Hc & Hv) (Hl' & Hc' & Hv'). unfold shrinks.
  split; [congruence|]. split; [congruence|]. auto.
Qed.

Lemma for_each_shrinks {A} (body : A -> State -> option State) (xs : list A) :
  (forall x st st', body x st = Some st' -> shrinks st st') ->
  forall st st', for_each body xs st = Some st' -> shrinks st st'.
Proof.
  intros Hbody. induction xs as [|x xs IH]; intros st st'; cbn.
  - intros [= <-]. apply shrinks_refl.
  - destruct (body x st) as [st1|] eqn:H1; [|discriminate]. intros Hrest.
    eapply shrinks_trans; [exact (Hbody _ _ _ H1)|exact (IH _ _ Hrest)].
Qed.

Lemma set_count_shrinks st idx z : shrinks st (set_count st idx z).
Proof.
  unfold shrinks. cbn. rewrite length_insert. auto.
Qed.

Lemma set_valid_false_shrinks st idx : shrinks st (set_valid st idx false).
Proof.
  unfold shrinks. cbn. rewrite length_insert.
  split; [reflexivity|]. split; [reflexivity|]. intros i Hi.
  destruct (decide (i = idx)) as [->|Hne].
  - destruct (decide (idx < length (is_valid st))) as [Hlt|Hge].
    + rewrite list_lookup_insert_eq in Hi by exact Hlt. discriminate.
    + rewrite list_insert_ge in Hi by lia. exact Hi.
  - rewrite list_lookup_insert_ne in Hi by congruence. exact Hi.
Qed.

Lemma enter_shrinks st depth : shrinks st (enter st depth).
Proof. unfold shrinks. cbn. auto. Qed.

Lemma clear_neighbors_shrinks (fuel : nat) :
  forall depth idx st st',
    clear_neighbors hoppings min_neighbors fuel depth idx st = Some st' ->
    shrinks st st'.
Proof.
  induction fuel as [|fuel IH]; intros depth idx st st'; [discriminate|].
  cbn [clear_neighbors].
  destruct (_ =? 0)%Z.
  - intros [= <-]. apply enter_shrinks.
  - unfold for_each_neighbour.
    destruct (for_each _ _ _) as [st2|] eqn:Hloop; [|discriminate].
    intros [= <-].
    eapply shrinks_trans; [apply (enter_shrinks st depth)|].
    eapply shrinks_trans; [|apply set_count_shrinks].
    eapply for_each_shrinks; [|exact Hloop].
    intros j s s'. unfold visit_neighbor.
    destruct (negb _); [intros [= <-]; apply shrinks_refl|].
    destruct (_ <? _)%Z.
    + intros Hrec.
      eapply shrinks_trans; [apply set_count_shrinks|].
      eapply shrinks_trans; [apply set_valid_false_shrinks|].
      exact (IH _ _ _ _ Hrec).
    + intros [= <-]. apply set_count_shrinks.
Qed.

Lemma remove_dangling_shrinks (fuel : nat) (foundation : Foundation)
    (st : State) :
  remove_dangling hoppings min_neighbors fuel foundation = Some st ->
  shrinks (MkState (get_states foundation)
                   (count_neighbors hoppings foundation) 0 0 0) st.
Proof.
  unfold remove_dangling. intros Hrun.
  eapply for_each_shrinks; [|exact Hrun].
  intros idx s s'. cbn beta.
  destruct (negb _); [apply clear_neighbors_shrinks|].
  intros [= <-]. apply shrinks_refl.
Qed.

(** With a nesting budget of one call per site [remove_dangling]
    returns. *)
Lemma remove_dangling_returns (fuel : nat) (foundation : Foundation) :
  neighbors_in_range hoppings (get_num_sites foundation) ->
  length (get_states foundation) = get_num_sites foundation ->
  get_num_sites foundation <= fuel ->
  exists st, remove_dangling hoppings min_neighbors fuel foundation = Some st.
Proof.
  intros Hrange Hlen Hfuel. set (n := get_num_sites foundation) in *.
  destruct (site_loop_moves hoppings min_neighbors n Hrange n (seq 0 n))
    with (st := MkState (get_states foundation)
                        (count_neighbors hoppings foundation) 0 0 0)
    as (st & Hrun & _).
  { lia. }
  { apply Forall_forall. intros i Hi. apply elem_of_seq in Hi. lia. }
  { exact Hlen. }
  exists st. unfold remove_dangling. fold n.
  eapply for_each_mono; [|exact Hrun].
  intros idx s r. cbn beta.
  destruct (negb (at_ (is_valid s) idx)); [|auto].
  apply clear_neighbors_fuel_mono. exact Hfuel.
Qed.

(** X10: [remove_dangling] only ever takes sites away.  Whatever the
    lattice and [min_neighbors], the validity array it leaves has the
    length it had, the count array has one entry per site, and every site
    that is valid afterwards was valid before. *)
Theorem remove_dangling_only_removes_sites
    (fuel : nat) (foundation : Foundation) (st : State) :
  remove_dangling hoppings min_neighbors fuel foundation = Some st ->
  length (is_valid st) = length (get_states foundation) /\
  length (neighbor_count st) = get_num_sites foundation /\
  (forall i : nat, is_valid st !! i = Some true ->
                   get_states foundation !! i = Some true) /\
  count_valid (is_valid st) <= count_valid (get_states foundation).
Proof.
  intros Hrun.
  destruct (remove_dangling_shrinks fuel foundation st Hrun) as (Hl & Hc & Hv).
  cbn in Hl, Hc, Hv.
  split; [exact Hl|]. split.
  - rewrite Hc. unfold count_neighbors. rewrite length_map, length_seq.
    reflexivity.
  - split; [exact Hv|].
    clear Hrun Hc. revert Hl Hv.
    generalize (get_states foundation) as l. generalize (is_valid st) as l'.
    induction l' as [|v' l' IH]; intros [|v l] Hl Hv; simpl in *;
      try discriminate; [lia|].
    assert (count_valid l' <= count_valid l).
    { apply IH; [lia|]. intros i Hi. exact (Hv (S i) Hi). }
    destruct v'; [|lia].
    specialize (Hv 0 eq_refl). inversion Hv; subst. lia.
Qed.
End OnlyRemoves.

Section RemoveDanglingEdgeCases.
Import Foundation.
Variable hoppings : nat -> list (option nat).
Variable min_neighbors : Z.

(** X11: [remove_dangling] prunes only next to invalid sites.  On a
    foundation all of whose sites are valid it never enters
    [clear_neighbors] and removes nothing, whatever [min_neighbors] is and
    however few neighbors a site has. *)
Theorem remove_dangling_keeps_foundation_without_invalid_sites
    (fuel : nat) (foundation : Foundation) :
  length (get_states foundation) = get_num_sites foundation ->
  Forall (fun v => v = true) (get_states foundation) ->
  remove_dangling hoppings min_neighbors fuel foundation
  = Some (MkState (get_states foundation)
                  (count_neighbors hoppings foundation) 0 0 0).
Proof.
  intros Hlen Hall. unfold remove_dangling.
  assert (Hloop : forall (xs : list nat) st,
            Forall (fun idx => at_ (is_valid st) idx = true) xs ->
            for_each (fun idx st =>
                        if negb (at_ (is_valid st) idx)
                        then clear_neighbors hoppings min_neighbors fuel 1 idx st
                        else Some st) xs st = Some st).
  { induction xs as [|x xs IH]; intros st Hxs; cbn; [reflexivity|].
    apply Forall_cons in Hxs as [Hx Hxs]. rewrite Hx. cbn. apply IH, Hxs. }
  apply Hloop. cbn. apply Forall_forall. intros idx Hidx.
  apply elem_of_seq in Hidx.
  destruct (lookup_lt_is_Some_2 (get_states foundation) idx) as [v Hv]; [lia|].
  unfold at_. rewrite (list_lookup_total_correct _ _ _ Hv).
  rewrite Forall_forall in Hall. apply Hall.
  apply list_elem_of_lookup. eauto.
Qed.

(** X12: [clear_neighbors] leaves the count of the site it was called for
    at zero, so calling it again for the same site returns at once and
    changes neither the validity nor the counts: the second visit that
    the loop of [remove_dangling] pays to a site removed by the recursion
    is harmless. *)
Theorem clear_neighbors_again_returns_at_once
    (fuel depth idx : nat) (st st' : State) :
  idx < length (neighbor_count st) ->
  clear_neighbors hoppings min_neighbors fuel depth idx st = Some st' ->
  at_ (neighbor_count st') idx = 0%Z /\
  forall fuel' depth',
    clear_neighbors hoppings min_neighbors (S fuel') depth' idx st'
    = Some (enter st' depth') /\
    is_valid (enter st' depth') = is_valid st' /\
    neighbor_count (enter st' depth') = neighbor_count st'.
Proof.
  intros Hidx Hrun.
  assert (Hzero : at_ (neighbor_count st') idx = 0%Z).
  { destruct fuel as [|fuel]; [discriminate|]. cbn [clear_neighbors] in Hrun.
    destruct (at_ (neighbor_count (enter st depth)) idx =? 0)%Z eqn:Hc.
    - inversion Hrun; subst st'. apply Z.eqb_eq. exact Hc.
    - unfold for_each_neighbour in Hrun.
      destruct (for_each _ _ _) as [st2|] eqn:Hloop; [|discriminate].
      inversion Hrun; subst st'. cbn.
      assert (Hs : shrinks (enter st depth) st2).
      { eapply for_each_shrinks; [|exact Hloop].
        intros j s s'. unfold visit_neighbor.
        destruct (negb _); [intros [= <-]; apply shrinks_refl|].
        destruct (_ <? _)%Z.
        - intros Hrec.
          eapply shrinks_trans; [apply set_count_shrinks|].
          eapply shrinks_trans; [apply set_valid_false_shrinks|].
          exact (clear_neighbors_shrinks hoppings min_neighbors _ _ _ _ _ Hrec).
        - intros [= <-]. apply set_count_shrinks. }
      destruct Hs as (_ & Hlen & _). cbn in Hlen.
      unfold at_. apply list_lookup_total_correct.
      apply list_lookup_insert_eq. lia. }
  split; [exact Hzero|].
  intros fuel' depth'. cbn [clear_neighbors].
  change (neighbor_count (enter st' depth')) with (neighbor_count st').
  rewrite Hzero. cbn. auto.
Qed.
End RemoveDanglingEdgeCases.

(* ===================================================================== *)
(** * Properties of the bounds, sizes and positions of a foundation *)
(* ===================================================================== *)
Section FindBoundsFacts.
Import Foundation FoundationGeometry.
Local Open Scope Z_scope.
Variable Point : Type.
Variable translate : Point -> Array3i.

Lemma coeff_cwise (f : Z -> Z -> Z) (a b : Array3i) (d : nat) :
  coeff (cwise f a b) d = f (coeff a d) (coeff b d).
Proof.
  destruct a as [[ax ay] az], b as [[bx by_] bz].
  destruct d as [|[|d]]; reflexivity.
Qed.

Lemma coeff_head_update (n : nat) (f : Z -> Z) (v : Array3i) (d : nat) :
  (d < 3)%nat ->
  coeff (head_update n f v) d
  = if decide (d < n)%nat then f (coeff v d) else coeff v d.
Proof.
  intros Hd. destruct v as [[x y] z].
  destruct d as [|[|[|d]]]; [| | |lia];
    destruct n as [|[|[|n]]]; cbn [head_update coeff];
    case_decide; try reflexivity; lia.
Qed.

(** The loop of [find_bounds]: the bounds only widen, they enclose every
    vertex seen, and each bound is the initial one or attained. *)
Lemma widen_all (vertices : list Point) : forall (lo hi : Array3i) (d : nat),
  let r := fold_left (widen Point translate) vertices (lo, hi) in
  coeff (fst r) d <= coeff lo d /\
  coeff hi d <= coeff (snd r) d /\
  (forall q, q ∈ vertices ->
     coeff (fst r) d <= coeff (translate q) d <= coeff (snd r) d) /\
  (coeff (fst r) d = coeff lo d \/
   exists q, q ∈ vertices /\ coeff (fst r) d = coeff (translate q) d) /\
  (coeff (snd r) d = coeff hi d \/
   exists q, q ∈ vertices /\ coeff (snd r) d = coeff (translate q) d).
Proof.
  induction vertices as [|p vs IH]; intros lo hi d; cbn [fold_left].
  - cbn [fst snd]. split; [lia|]. split; [lia|]. split; [|auto].
    intros q Hq. apply elem_of_nil in Hq. contradiction.
  - specialize (IH (select_lt (translate p) lo) (select_gt (translate p) hi) d).
    cbn zeta in IH. unfold widen at 2. cbn [fst snd].
    set (r := fold_left _ vs _) in *.
    destruct IH as (Hlo & Hhi & Hall & Hlo' & Hhi').
    unfold select_lt, select_gt in Hlo, Hhi, Hlo', Hhi'.
    rewrite coeff_cwise in Hlo, Hhi, Hlo', Hhi'.
    set (v := coeff (translate p) d) in *.
    set (m := if v <? coeff lo d then v else coeff lo d) in *.
    set (M := if v >? coeff hi d then v else coeff hi d) in *.
    assert (Hm : m <= coeff lo d /\ m <= v /\ (m = coeff lo d \/ m = v)).
    { subst m. destruct (Z.ltb_spec v (coeff lo d)); lia. }
    assert (HM : coeff hi d <= M /\ v <= M /\ (M = coeff hi d \/ M = v)).
    { subst M. destruct (Z.gtb_spec v (coeff hi d)); lia. }
    clearbody m M.
    split; [lia|]. split; [lia|]. split; [|split].
    + intros q Hq. apply elem_of_cons in Hq as [->|Hq].
      * fold v. lia.
      * exact (Hall q Hq).
    + destruct Hlo' as [Heq|(q & Hq & Heq)].
      * destruct Hm as (_ & _ & [Hm|Hm]); [left; lia|].
        right. exists p. split; [left|]. fold v. lia.
      * right. exists q. split; [right; exact Hq|exact Heq].
    + destruct Hhi' as [Heq|(q & Hq & Heq)].
      * destruct HM as (_ & _ & [HM|HM]); [left; lia|].
        right. exists p. split; [left|]. fold v. lia.
      * right. exists q. split; [right; exact Hq|exact Heq].
Qed.

(** The bounds of [find_bounds] in dimension [d]: the smallest and the
    largest vertex coordinate, moved apart by one in a lattice dimension. *)
Lemma find_bounds_extremes (vertices : list Point) (ndim : nat) (p : Point)
    (d : nat) :
  p ∈ vertices -> (d < 3)%nat ->
  (forall q, q ∈ vertices ->
     INT_MIN < coeff (translate q) d < INT_MAX) ->
  let lower := fst (find_bounds Point translate vertices ndim) in
  let upper := snd (find_bounds Point translate vertices ndim) in
  let margin := if decide (d < ndim)%nat then 1 else 0 in
  exists ql qh, ql ∈ vertices /\ qh ∈ vertices /\
    (forall q, q ∈ vertices ->
       coeff (translate ql) d <= coeff (translate q) d
       <= coeff (translate qh) d) /\
    coeff lower d = coeff (translate ql) d - margin /\
    coeff upper d = coeff (translate qh) d + margin.
Proof.
  intros Hp Hd Hrange. unfold find_bounds. cbn zeta.
  pose proof (widen_all vertices (Constant INT_MAX) (Constant INT_MIN) d)
    as Hw. cbn zeta in Hw.
  destruct (fold_left _ vertices _) as [lo hi]. cbn [fst snd] in *.
  rewrite !coeff_head_update by exact Hd.
  destruct Hw as (Hlo & Hhi & Hall & Hlo' & Hhi').
  assert (Hc : forall c, coeff (Constant c) d = c).
  { intros c. destruct d as [|[|d]]; reflexivity. }
  rewrite !Hc in *.
  pose proof (Hall p Hp) as Hbetween. pose proof (Hrange p Hp) as Hpr.
  assert (Hlo_at : exists q, q ∈ vertices /\ coeff lo d = coeff (translate q) d).
  { destruct Hlo' as [Heq|Hq]; [|exact Hq]. exists p. split; [exact Hp|lia]. }
  assert (Hhi_at : exists q, q ∈ vertices /\ coeff hi d = coeff (translate q) d).
  { destruct Hhi' as [Heq|Hq]; [|exact Hq]. exists p. split; [exact Hp|lia]. }
  destruct Hlo_at as (ql & Hql & Hlq), Hhi_at as (qh & Hqh & Hhq).
  pose proof (Hrange ql Hql) as Hrl. pose proof (Hrange qh Hqh) as Hrh.
  exists ql, qh. split; [exact Hql|]. split; [exact Hqh|]. split.
  - intros q Hq. specialize (Hall q Hq). lia.
  - unfold INT_MIN, INT_MAX in *. case_decide.
    + rewrite !int32_small by lia. lia.
    + lia.
Qed.

(** X13: the bounds that [find_bounds] returns enclose every vertex of the
    shape, for vertices whose lattice coordinates are inside the range of
    [int]: in each of the first [ndim] dimensions the lower bound is one
    below the smallest and the upper bound one above the largest vertex
    coordinate, so every vertex lies strictly between them; in the other
    dimensions the bounds are the smallest and the largest coordinate. *)
Theorem find_bounds_encloses_every_vertex
    (vertices : list Point) (ndim : nat) (p : Point) (d : nat) :
  p ∈ vertices -> (d < 3)%nat ->
  (forall q, q ∈ vertices ->
     INT_MIN < coeff (translate q) d < INT_MAX) ->
  let lower := fst (find_bounds Point translate vertices ndim) in
  let upper := snd (find_bounds Point translate vertices ndim) in
  let margin := if decide (d < ndim)%nat then 1 else 0 in
  coeff lower d + margin <= coeff (translate p) d <= coeff upper d - margin /\
  (exists q, q ∈ vertices /\ coeff lower d + margin = coeff (translate q) d) /\
  (exists q, q ∈ vertices /\ coeff upper d - margin = coeff (translate q) d).
Proof.
  intros Hp Hd Hrange lower upper margin.
  destruct (find_bounds_extremes vertices ndim p d Hp Hd Hrange)
    as (ql & qh & Hql & Hqh & Hall & Hlo & Hhi).
  fold lower in Hlo. fold upper in Hhi. fold margin in Hlo, Hhi.
  pose proof (Hall p Hp). split; [lia|].
  split; [exists ql|exists qh]; split; auto; lia.
Qed.

End FindBoundsFacts.

Section PrimitiveFacts.
Import Foundation FoundationGeometry.
Local Open Scope Z_scope.

Lemma primitive_span (s : Z) :
  1 <= s <= INT_MAX ->
  int32 (- s) ÷ 2 <= 0 <= int32 (s - 1) ÷ 2 /\
  int32 (int32 (int32 (s - 1) ÷ 2 - int32 (- s) ÷ 2) + 1) = s.
Proof.
  unfold INT_MAX. intros Hs.
  rewrite (int32_small (- s)), (int32_small (s - 1)) by lia.
  rewrite Z.quot_opp_l by lia.
  rewrite !Z.quot_div_nonneg by lia.
  pose proof (Z.div_mod s 2 ltac:(lia)) as Hs2.
  pose proof (Z.mod_pos_bound s 2 ltac:(lia)) as Hm.
  pose proof (Z.div_mod (s - 1) 2 ltac:(lia)) as Hs1.
  pose proof (Z.mod_pos_bound (s - 1) 2 ltac:(lia)) as Hm1.
  assert ((s - 1) / 2 - - (s / 2) + 1 = s) as Hspan.
  { assert (s mod 2 = 0 \/ s mod 2 = 1) as [H0|H1] by lia.
    - assert ((s - 1) mod 2 = 1).
      { replace (s - 1) with (1 + (s / 2 - 1) * 2) by lia.
        rewrite Z.mod_add by lia. reflexivity. }
      lia.
    - assert ((s - 1) mod 2 = 0).
      { replace (s - 1) with (0 + (s / 2) * 2) by lia.
        rewrite Z.mod_add by lia. reflexivity. }
      lia. }
  split; [lia|].
  rewrite (int32_small ((s - 1) / 2 - - (s / 2))) by lia.
  rewrite Hspan. apply int32_small. lia.
Qed.

(** X14: for a primitive of at least one cell in every direction the
    bounds of [Foundation(Lattice, Primitive)] contain the cell at the
    origin and span exactly [size] cells: the size that
    [Foundation(Lattice, Shape)] would compute from these bounds is the
    size of the primitive. *)
Theorem primitive_bounds_span_the_size (primitive_size : Array3i) :
  (forall d : nat, 1 <= coeff primitive_size d <= INT_MAX) ->
  size_of_bounds (primitive_bounds primitive_size) = primitive_size /\
  forall d : nat,
    coeff (fst (primitive_bounds primitive_size)) d <= 0
    <= coeff (snd (primitive_bounds primitive_size)) d.
Proof.
  intros Hsize. destruct primitive_size as [[x y] z].
  pose proof (primitive_span x (Hsize 0%nat)) as (Hx & Hx').
  pose proof (primitive_span y (Hsize 1%nat)) as (Hy & Hy').
  pose proof (primitive_span z (Hsize 2%nat)) as (Hz & Hz').
  split.
  - unfold size_of_bounds, primitive_bounds, cwise. cbn [fst snd].
    rewrite Hx', Hy', Hz'. reflexivity.
  - intros d. unfold primitive_bounds. cbn [fst snd].
    destruct d as [|[|d]]; cbn [coeff]; assumption.
Qed.
End PrimitiveFacts.

Section IdentityIndices.
Import Foundation FoundationGeometry.
Local Open Scope Z_scope.

Lemma int32_range z : - 2 ^ 31 <= int32 z < 2 ^ 31.
Proof.
  unfold int32, wrap.
  change (2 ^ (32 - 1)) with (2 ^ 31). change (2 ^ 32) with (2 * 2 ^ 31).
  pose proof (Z.mod_pos_bound (z + 2 ^ 31) (2 * 2 ^ 31) ltac:(lia)). lia.
Qed.

Lemma count_valid_replicate_true (k : nat) :
  count_valid (replicate k true) = k.
Proof. induction k as [|k IH]; simpl; [reflexivity|]. rewrite IH. reflexivity. Qed.

(** With every site valid the sites are numbered by themselves. *)
Lemma all_valid_indices (n : nat) :
  Z.of_nat n <= INT_MAX ->
  HamiltonianIndices_of (MkFoundation n (replicate n true))
  = MkIndices (Z.of_nat <$> seq 0 n) (Z.of_nat n).
Proof.
  intros Hn. unfold HamiltonianIndices_of. cbn [get_num_sites get_states].
  rewrite (assign_index_loop (replicate n true) n n) by
    (try apply length_replicate; auto; lia).
  f_equal.
  - apply list_eq. intros i.
    destruct (decide (i < n)%nat) as [Hi|Hi].
    + rewrite indices_upto_lookup by lia.
      rewrite list_lookup_fmap, lookup_seq_lt by lia.
      rewrite bool_decide_eq_true_2 by lia.
      unfold at_. rewrite (list_lookup_total_correct _ i true)
        by (apply lookup_replicate_2; lia).
      rewrite take_replicate, count_valid_replicate_true. cbn.
      do 2 f_equal. lia.
    + rewrite !lookup_ge_None_2; auto.
      * rewrite length_fmap, length_seq. lia.
      * rewrite indices_upto_length. lia.
  - rewrite take_replicate, count_valid_replicate_true. f_equal. lia.
Qed.
End IdentityIndices.

Section WriterFacts.
Import Foundation FoundationGeometry.
Context {C : Type}.

Lemma store_written (n : nat) (done : list C) (pa : C)
    (st : list (option C) * nat) :
  written n done st -> length done < n ->
  exists st', store C pa st = Some st' /\ written n (done ++ [pa]) st'.
Proof.
  intros [-> Hle] Hlt. unfold store.
  assert (Hlen : length ((Some <$> done) ++ replicate (n - length done) None)
                 = n).
  { rewrite length_app, length_fmap, length_replicate. lia. }
  rewrite Hlen. rewrite decide_True by exact Hlt.
  eexists. split; [reflexivity|]. unfold written.
  rewrite length_app. cbn [length]. split; [|lia].
  f_equal; [|lia].
  replace (n - length done) with (S (n - (length done + 1))) by lia.
  cbn [replicate].
  rewrite (insert_app_r_alt (Some <$> done)) by (rewrite length_fmap; lia).
  rewrite length_fmap, Nat.sub_diag. cbn [insert list_insert].
  rewrite fmap_app, <- app_assoc. reflexivity.
Qed.

Lemma for_each_written {A} (n : nat)
    (body : A -> list (option C) * nat -> option (list (option C) * nat))
    (g : A -> list C) (xs : list A) :
  (forall x done st, x ∈ xs -> written n done st ->
     length done + length (g x) <= n ->
     exists st', body x st = Some st' /\ written n (done ++ g x) st') ->
  forall done st, written n done st ->
    length done + length (xs ≫= g) <= n ->
    exists st', for_each body xs st = Some st' /\
                written n (done ++ (xs ≫= g)) st'.
Proof.
  induction xs as [|x xs IH]; intros Hbody done st Hst Hlen.
  - exists st. split; [reflexivity|]. cbn. rewrite app_nil_r. exact Hst.
  - cbn [for_each]. change ((x :: xs) ≫= g) with (g x ++ (xs ≫= g)) in *.
    rewrite length_app in Hlen.
    destruct (Hbody x done st) as (st1 & -> & H1); [left|exact Hst|lia|].
    destruct (IH (fun y d s Hy => Hbody y d s (list_elem_of_further _ _ _ Hy))
                 (done ++ g x) st1 H1) as (st' & Hrun & H');
      [rewrite length_app; lia|].
    exists st'. split; [exact Hrun|]. rewrite app_assoc. exact H'.
Qed.

Lemma length_bind_blocks {A B} (g : A -> list B) (k : nat) (xs : list A) :
  (forall x, x ∈ xs -> length (g x) = k) ->
  length (xs ≫= g) = length xs * k.
Proof.
  induction xs as [|x xs IH]; intros Hg; [reflexivity|].
  change ((x :: xs) ≫= g) with (g x ++ (xs ≫= g)).
  rewrite length_app, (Hg x) by left.
  rewrite IH by (intros y Hy; apply Hg; right; exact Hy). cbn. lia.
Qed.

Lemma lookup_bind_blocks {A B} (g : A -> list B) (k : nat) (xs : list A) :
  (forall x, x ∈ xs -> length (g x) = k) ->
  forall (i j : nat) (x : A), xs !! i = Some x -> j < k ->
    (xs ≫= g) !! (i * k + j) = g x !! j.
Proof.
  induction xs as [|y xs IH]; intros Hg i j x Hi Hj; [discriminate|].
  change ((y :: xs) ≫= g) with (g y ++ (xs ≫= g)).
  destruct i as [|i]; cbn in Hi.
  - inversion Hi; subst y. cbn [Nat.mul Nat.add].
    apply lookup_app_l. rewrite (Hg x) by left. exact Hj.
  - rewrite lookup_app_r by (rewrite (Hg y) by left; lia).
    rewrite (Hg y) by left.
    replace (S i * k + j - k) with (i * k + j) by lia.
    apply IH; auto. intros z Hz. apply Hg. right. exact Hz.
Qed.

Lemma counter_lookup (n : Z) (i : nat) :
  (Z.of_nat i < n)%Z -> counter n !! i = Some (Z.of_nat i).
Proof.
  intros Hi. unfold counter.
  rewrite list_lookup_fmap, lookup_seq_lt by lia. reflexivity.
Qed.

Lemma counter_length (n : Z) : length (counter n) = Z.to_nat n.
Proof. unfold counter. rewrite length_fmap, length_seq. reflexivity. Qed.
End WriterFacts.

Section PositionsFacts.
Import Foundation FoundationGeometry.
Variable Cartesian : Type.
Variable add : Cartesian -> Cartesian -> Cartesian.
Variable scaled : Z -> Cartesian -> Cartesian.
Variable sub_position : Z -> Cartesian.
Variable vector : nat -> Cartesian.

Lemma int32_mul_l (a b : Z) : int32 (int32 a * b) = int32 (a * b).
Proof.
  unfold int32, wrap.
  change (2 ^ (32 - 1))%Z with (2 ^ 31)%Z.
  pose proof (Z.div_mod (a + 2 ^ 31) (2 ^ 32) ltac:(lia)) as Hdm.
  set (q := ((a + 2 ^ 31) / 2 ^ 32)%Z) in *.
  replace (((a + 2 ^ 31) mod 2 ^ 32 - 2 ^ 31) * b + 2 ^ 31)%Z
    with (a * b + 2 ^ 31 + (- (q * b)) * 2 ^ 32)%Z by lia.
  rewrite Z.mod_add by lia. reflexivity.
Qed.

Lemma mixed_radix_lt (i k j n : Z) :
  (0 <= i < n)%Z -> (0 <= j < k)%Z -> (i * k + j < n * k)%Z.
Proof. intros Hi Hj. nia. Qed.

Lemma num_sites_of_exact (x y z nsub : Z) :
  (0 <= x)%Z -> (0 <= y)%Z -> (0 <= z)%Z -> (0 <= nsub)%Z ->
  (x * y * z * nsub <= INT_MAX)%Z ->
  num_sites_of (x, y, z) nsub = (x * y * z * nsub)%Z.
Proof.
  intros Hx Hy Hz Hn Hmax. unfold num_sites_of, prod.
  rewrite int32_mul_l, <- Z.mul_assoc, int32_mul_l, Z.mul_assoc.
  apply int32_small. unfold INT_MAX in Hmax. nia.
Qed.

(** The positions in the order of the four nested loops. *)
Let row (origin : Cartesian) (x : Z) (s c b : Z) : list Cartesian :=
  counter x ≫= fun a =>
    [position_of add scaled sub_position vector origin s c b a].
Let plane (origin : Cartesian) (x y : Z) (s c : Z) : list Cartesian :=
  counter y ≫= row origin x s c.
Let block (origin : Cartesian) (x y z : Z) (s : Z) : list Cartesian :=
  counter z ≫= plane origin x y s.

Lemma row_length origin x s c b :
  length (row origin x s c b) = Z.to_nat x.
Proof.
  unfold row. rewrite (length_bind_blocks _ 1) by reflexivity.
  rewrite counter_length. lia.
Qed.

Lemma plane_length origin x y s c :
  length (plane origin x y s c) = Z.to_nat y * Z.to_nat x.
Proof.
  unfold plane.
  rewrite (length_bind_blocks _ (Z.to_nat x)) by (intros; apply row_length).
  rewrite counter_length. reflexivity.
Qed.

Lemma block_length origin x y z s :
  length (block origin x y z s) = Z.to_nat z * (Z.to_nat y * Z.to_nat x).
Proof.
  unfold block.
  rewrite (length_bind_blocks _ (Z.to_nat y * Z.to_nat x))
    by (intros; apply plane_length).
  rewrite counter_length. reflexivity.
Qed.

Lemma positions_in_order_length origin (size : Array3i) nsub :
  (forall d : nat, 0 <= coeff size d)%Z -> (0 <= nsub)%Z ->
  (coeff size 0 * coeff size 1 * coeff size 2 * nsub <= INT_MAX)%Z ->
  Z.of_nat (length (positions_in_order add scaled sub_position vector
                      origin size nsub))
  = num_sites_of size nsub.
Proof.
  intros Hsize Hnsub Hmax. destruct size as [[x y] z].
  pose proof (Hsize 0) as Hx. pose proof (Hsize 1) as Hy.
  pose proof (Hsize 2) as Hz. cbn [coeff] in *.
  rewrite num_sites_of_exact by assumption.
  change (positions_in_order add scaled sub_position vector origin
            (x, y, z) nsub)
    with (counter nsub ≫= block origin x y z).
  rewrite (length_bind_blocks _ (Z.to_nat z * (Z.to_nat y * Z.to_nat x)))
    by (intros; apply block_length).
  rewrite counter_length.
  rewrite !Nat2Z.inj_mul, !Z2Nat.id by lia. lia.
Qed.

(** The loops write the positions in order into the fresh array. *)
Lemma generate_positions_written origin (size : Array3i) nsub :
  (forall d : nat, 0 <= coeff size d)%Z -> (0 <= nsub)%Z ->
  (coeff size 0 * coeff size 1 * coeff size 2 * nsub <= INT_MAX)%Z ->
  generate_positions Cartesian add scaled sub_position vector origin size nsub
  = Some (Some <$> positions_in_order add scaled sub_position vector
                     origin size nsub).
Proof.
  intros Hsize Hnsub Hmax.
  pose proof (positions_in_order_length origin size nsub Hsize Hnsub Hmax)
    as Hnum.
  destruct size as [[x y] z]. cbn [coeff] in *.
  change (positions_in_order add scaled sub_position vector origin
            (x, y, z) nsub)
    with (counter nsub ≫= block origin x y z) in *.
  set (all := counter nsub ≫= block origin x y z) in *.
  unfold generate_positions. cbn [coeff]. rewrite <- Hnum, Nat2Z.id.
  destruct (for_each_written (length all)
              (fun s =>
                 for_each (fun c =>
                   for_each (fun b =>
                     for_each (fun a =>
                       store Cartesian
                         (add (if (b =? 0)%Z
                               then if (c =? 0)%Z
                                    then add origin (sub_position s)
                                    else add (add origin (sub_position s))
                                             (scaled c (vector 2))
                               else add (if (c =? 0)%Z
                                         then add origin (sub_position s)
                                         else add (add origin (sub_position s))
                                                  (scaled c (vector 2)))
                                        (scaled b (vector 1)))
                              (scaled a (vector 0))))
                     (counter x))
                   (counter y))
                 (counter z))
              (block origin x y z) (counter nsub))
    with (done := @nil Cartesian)
         (st := (replicate (length all) (@None Cartesian), 0))
    as (st' & Hrun & [-> _]).
  - intros s done st _ Hst Hlen.
    apply (for_each_written _ _ (plane origin x y s)); [|exact Hst|exact Hlen].
    intros c done1 st1 _ Hst1 Hlen1.
    apply (for_each_written _ _ (row origin x s c)); [|exact Hst1|exact Hlen1].
    intros b done2 st2 _ Hst2 Hlen2.
    apply (for_each_written _ _
             (fun a => [position_of add scaled sub_position vector
                          origin s c b a]));
      [|exact Hst2|exact Hlen2].
    intros a done3 st3 _ Hst3 Hlen3. cbn [length] in Hlen3.
    apply store_written; [exact Hst3|lia].
  - split; [|cbn [length]; lia]. cbn. rewrite Nat.sub_0_r. reflexivity.
  - cbn [length]. fold all. lia.
  - rewrite Hrun. cbn [fmap option_fmap option_map fst app].
    rewrite Nat.sub_diag. cbn [replicate]. rewrite app_nil_r. reflexivity.
Qed.

(** X16: for non-negative sizes whose product with the number of
    sublattices fits an [int], [generate_positions] never writes outside
    the array it allocates, writes every one of its [num_sites] slots, and
    puts the position of the site (a, b, c) of sublattice s at the flat
    index ((s * size[2] + c) * size[1] + b) * size[0] + a. *)
Theorem generate_positions_fills_every_slot
    (origin : Cartesian) (size : Array3i) (nsub : Z) :
  (forall d : nat, 0 <= coeff size d)%Z -> (0 <= nsub)%Z ->
  (coeff size 0 * coeff size 1 * coeff size 2 * nsub <= INT_MAX)%Z ->
  exists positions : list Cartesian,
    generate_positions Cartesian add scaled sub_position vector origin size nsub
      = Some (Some <$> positions) /\
    Z.of_nat (length positions) = num_sites_of size nsub /\
    forall s c b a : Z,
      (0 <= s < nsub)%Z -> (0 <= c < coeff size 2)%Z ->
      (0 <= b < coeff size 1)%Z -> (0 <= a < coeff size 0)%Z ->
      positions !! Z.to_nat (((s * coeff size 2 + c) * coeff size 1 + b)
                             * coeff size 0 + a)
      = Some (position_of add scaled sub_position vector origin s c b a).
Proof.
  intros Hsize Hnsub Hmax.
  exists (positions_in_order add scaled sub_position vector origin size nsub).
  split; [apply generate_positions_written; assumption|].
  split; [apply positions_in_order_length; assumption|].
  destruct size as [[x y] z].
  pose proof (Hsize 0) as Hx. pose proof (Hsize 1) as Hy.
  pose proof (Hsize 2) as Hz. cbn [coeff] in *.
  change (positions_in_order add scaled sub_position vector origin
            (x, y, z) nsub)
    with (counter nsub ≫= block origin x y z).
  set (X := Z.to_nat x). set (Y := Z.to_nat y). set (Zn := Z.to_nat z).
  intros s c b a Hs Hc Hb Ha.
  replace (Z.to_nat (((s * z + c) * y + b) * x + a))
    with (Z.to_nat s * (Zn * (Y * X))
          + (Z.to_nat c * (Y * X)
             + (Z.to_nat b * X + (Z.to_nat a * 1 + 0)))).
  2: { assert (0 <= ((s * z + c) * y + b) * x + a)%Z as Hflat.
       { assert (0 <= s * z)%Z by nia.
         assert (0 <= (s * z + c) * y)%Z by nia.
         assert (0 <= ((s * z + c) * y + b) * x)%Z by nia. lia. }
       unfold Zn, Y, X. apply Nat2Z.inj.
       rewrite (Z2Nat.id _ Hflat).
       rewrite !Nat2Z.inj_add, !Nat2Z.inj_mul, !Z2Nat.id by lia. ring. }
  rewrite (lookup_bind_blocks (block origin x y z) (Zn * (Y * X)) _
             (fun s _ => block_length origin x y z s) (Z.to_nat s) _ s).
  2: { rewrite <- (Z2Nat.id s) at 2 by lia. apply counter_lookup. lia. }
  2: { unfold Zn, Y, X. apply Nat2Z.inj_lt.
       rewrite !Nat2Z.inj_add, !Nat2Z.inj_mul, !Z2Nat.id by lia.
       assert (b * x + a < y * x)%Z by (apply mixed_radix_lt; lia).
       assert (c * (y * x) + (b * x + a) < z * (y * x))%Z
         by (apply mixed_radix_lt; lia).
       change (Z.of_nat 1) with 1%Z. change (Z.of_nat 0) with 0%Z. lia. }
  unfold block.
  rewrite (lookup_bind_blocks (plane origin x y s) (Y * X) _
             (fun c _ => plane_length origin x y s c) (Z.to_nat c) _ c).
  2: { rewrite <- (Z2Nat.id c) at 2 by lia. apply counter_lookup. lia. }
  2: { unfold Y, X. apply Nat2Z.inj_lt.
       rewrite !Nat2Z.inj_add, !Nat2Z.inj_mul, !Z2Nat.id by lia.
       assert (b * x + a < y * x)%Z by (apply mixed_radix_lt; lia).
       change (Z.of_nat 1) with 1%Z. change (Z.of_nat 0) with 0%Z. lia. }
  unfold plane.
  rewrite (lookup_bind_blocks (row origin x s c) X _
             (fun b _ => row_length origin x s c b) (Z.to_nat b) _ b).
  2: { rewrite <- (Z2Nat.id b) at 2 by lia. apply counter_lookup. lia. }
  2: { unfold X. lia. }
  unfold row.
  rewrite (lookup_bind_blocks
             (fun a => [position_of add scaled sub_position vector
                          origin s c b a]) 1 _
             (fun a _ => eq_refl) (Z.to_nat a) 0 a).
  2: { rewrite <- (Z2Nat.id a) at 2 by lia. apply counter_lookup. lia. }
  2: { lia. }
  reflexivity.
Qed.
End PositionsFacts.

Section ConstructorFacts.
Import Foundation FoundationGeometry.
Variable Point : Type.
Variable translate : Point -> Array3i.
Variable Cartesian : Type.
Variable add : Cartesian -> Cartesian -> Cartesian.
Variable scaled : Z -> Cartesian -> Cartesian.
Variable sub_position : Z -> Cartesian.
Variable vector : nat -> Cartesian.
Variable calc_position : Array3i -> Cartesian.
Variable contains : list (option Cartesian) -> list bool.
Variable hoppings : nat -> list (option nat).

(** X15: for a primitive of at least one cell in every direction whose
    number of sites fits an [int], [Foundation(Lattice, Primitive)] builds
    a foundation whose bounds span its size, whose positions are all
    written and as many as its sites, and whose sites are all valid; and
    [HamiltonianIndices] numbers the sites of this foundation by
    themselves: site [i] gets Hamiltonian index [i]. *)
Theorem primitive_foundation_is_well_formed
    (lattice_nsub : Z) (primitive_size : Array3i) :
  (forall d : nat, 1 <= coeff primitive_size d <= INT_MAX)%Z ->
  (0 <= lattice_nsub)%Z ->
  (coeff primitive_size 0 * coeff primitive_size 1 * coeff primitive_size 2
   * lattice_nsub <= INT_MAX)%Z ->
  exists built,
    Foundation_of_primitive Cartesian add scaled sub_position vector
      calc_position lattice_nsub primitive_size = Some built /\
    size built = primitive_size /\
    size_of_bounds (bounds built) = size built /\
    Z.of_nat (length (positions built)) = num_sites built /\
    Forall is_Some (positions built) /\
    built_states built = replicate (Z.to_nat (num_sites built)) true /\
    HamiltonianIndices_of (as_foundation built)
    = MkIndices (Z.of_nat <$> seq 0 (Z.to_nat (num_sites built)))
                (num_sites built).
Proof.
  intros Hsize Hnsub Hmax.
  assert (Hnonneg : forall d : nat, (0 <= coeff primitive_size d)%Z).
  { intros d. specialize (Hsize d). lia. }
  unfold Foundation_of_primitive.
  rewrite generate_positions_written by assumption.
  eexists. split; [reflexivity|]. cbn [size bounds positions num_sites
    built_states as_foundation].
  pose proof (positions_in_order_length Cartesian add scaled sub_position
                vector (calc_position (fst (primitive_bounds primitive_size)))
                primitive_size lattice_nsub Hnonneg Hnsub Hmax) as Hlen.
  split; [reflexivity|]. split; [|split; [|split; [|split]]].
  - destruct primitive_size as [[x y] z].
    pose proof (primitive_span x (Hsize 0)) as (_ & Hx).
    pose proof (primitive_span y (Hsize 1)) as (_ & Hy).
    pose proof (primitive_span z (Hsize 2)) as (_ & Hz).
    unfold size_of_bounds, primitive_bounds, cwise. cbn [fst snd].
    rewrite Hx, Hy, Hz. reflexivity.
  - rewrite length_fmap. exact Hlen.
  - apply Forall_fmap, Forall_forall. intros p _. cbn. eauto.
  - reflexivity.
  - pose proof (int32_range (prod primitive_size * lattice_nsub)) as Hr.
    fold (num_sites_of primitive_size lattice_nsub) in Hr.
    unfold as_foundation. cbn [num_sites built_states].
    rewrite all_valid_indices by (unfold INT_MAX; lia).
    f_equal. lia.
Qed.

(** X18: [Foundation(Lattice, Shape)] completes and builds a well-formed
    foundation whenever the size computed from the bounds is non-negative
    with a number of sites that fits an [int], [shape.contains] answers
    for every position, and the neighbors are sites of the foundation: the
    positions are all written, the positions and the validity array have
    one entry per site, and every valid site is a site whose position the
    shape contains. *)
Theorem shape_foundation_is_well_formed
    (fuel : nat) (ndim : nat) (lattice_nsub : Z) (min_neighbors : Z)
    (vertices : list Point) :
  let sz := size_of_bounds (find_bounds Point translate vertices ndim) in
  let n := Z.to_nat (num_sites_of sz lattice_nsub) in
  (forall d : nat, 0 <= coeff sz d)%Z -> (0 <= lattice_nsub)%Z ->
  (coeff sz 0 * coeff sz 1 * coeff sz 2 * lattice_nsub <= INT_MAX)%Z ->
  (forall ps, length (contains ps) = length ps) ->
  neighbors_in_range hoppings n -> n <= fuel ->
  exists built,
    Foundation_of_shape Point translate Cartesian add scaled sub_position
      vector calc_position contains hoppings fuel ndim lattice_nsub
      min_neighbors vertices = Some built /\
    bounds built = find_bounds Point translate vertices ndim /\
    size built = sz /\
    Z.of_nat (length (positions built)) = num_sites built /\
    Forall is_Some (positions built) /\
    length (built_states built) = length (positions built) /\
    forall i : nat, built_states built !! i = Some true ->
                    contains (positions built) !! i = Some true.
Proof.
  intros sz n Hsize Hnsub Hmax Hcontains Hrange Hfuel.
  unfold Foundation_of_shape. fold sz.
  rewrite generate_positions_written by assumption.
  set (origin := calc_position (fst (find_bounds Point translate vertices ndim))).
  set (ps := Some <$> positions_in_order add scaled sub_position vector
                        origin sz lattice_nsub).
  pose proof (positions_in_order_length Cartesian add scaled sub_position
                vector origin sz lattice_nsub Hsize Hnsub Hmax) as Hlen.
  assert (Hps : length ps = n).
  { unfold ps, n. rewrite length_fmap, <- Hlen. symmetry. apply Nat2Z.id. }
  fold n.
  destruct (remove_dangling_returns hoppings min_neighbors fuel
              (MkFoundation n (contains ps))) as [st Hst].
  { exact Hrange. }
  { cbn. rewrite Hcontains. exact Hps. }
  { exact Hfuel. }
  rewrite Hst. eexists. split; [reflexivity|].
  cbn [size bounds positions num_sites built_states].
  destruct (remove_dangling_shrinks hoppings min_neighbors fuel _ st Hst)
    as (Hl & _ & Hv). cbn in Hl, Hv.
  split; [reflexivity|]. split; [reflexivity|]. split; [|split; [|split]].
  - unfold ps. rewrite length_fmap. exact Hlen.
  - apply Forall_fmap, Forall_forall. intros p _. cbn. eauto.
  - rewrite Hl. apply Hcontains.
  - exact Hv.
Qed.
End ConstructorFacts.

Section NoValidSites.
Import Foundation.
Local Open Scope Z_scope.

Lemma count_valid_take_all_false (l : list bool) :
  Forall (fun v => v = false) l ->
  forall k : nat, count_valid (take k l) = 0%nat.
Proof.
  induction 1 as [|v l Hv Hl IH]; intros [|k]; cbn; try reflexivity.
  subst v. rewrite IH. reflexivity.
Qed.

(** X19: when no site of the foundation is valid, and in particular when
    the foundation has no sites at all, [HamiltonianIndices] leaves -1 at
    every site and counts no valid site. *)
Theorem hamiltonian_indices_without_valid_sites (foundation : Foundation) :
  length (get_states foundation) = get_num_sites foundation ->
  Z.of_nat (get_num_sites foundation) <= INT_MAX ->
  Forall (fun v => v = false) (get_states foundation) ->
  HamiltonianIndices_of foundation
  = MkIndices (replicate (get_num_sites foundation) (-1)) 0.
Proof.
  intros Hlen Hmax Hall. unfold HamiltonianIndices_of.
  rewrite (assign_index_loop _ _ _ Hlen Hmax) by lia.
  pose proof (count_valid_take_all_false _ Hall) as Hzero.
  f_equal.
  - apply list_eq. intros i.
    destruct (decide (i < get_num_sites foundation)%nat) as [Hi|Hi].
    + rewrite indices_upto_lookup, lookup_replicate_2 by lia.
      destruct (lookup_lt_is_Some_2 (get_states foundation) i) as [v Hv];
        [lia|].
      unfold at_. rewrite (list_lookup_total_correct _ _ _ Hv).
      rewrite Forall_forall in Hall.
      rewrite (Hall v) by (apply list_elem_of_lookup; eauto).
      rewrite andb_false_r. reflexivity.
    + rewrite !lookup_ge_None_2; auto.
      * rewrite length_replicate. lia.
      * rewrite indices_upto_length. lia.
  - rewrite Hzero. reflexivity.
Qed.
End NoValidSites.

(* ===================================================================== *)
(** * Instances of the hypotheses *)
(* ===================================================================== *)

(** A float64 view, matched against the real types in two orders. *)
Lemma try_match_independent_of_list_order_witness :
  let ref := ArrayRef.MkVariant ArrayRef.float [ArrayRef.double]
               (ArrayRef.arrayref (c:=false) ArrayRef.f64 4096 3) in
  ArrayRef.try_match (fun _ => Z) (fun _ r => ArrayRef.cols r) ref report_type
    [ArrayRef.float; ArrayRef.double] tt
  = ArrayRef.try_match (fun _ => Z) (fun _ r => ArrayRef.cols r) ref
      report_type [ArrayRef.double; ArrayRef.float; ArrayRef.double] tt.
Proof.
  intros ref.
  destruct (try_match_independent_of_list_order (fun _ => Z)
              (fun _ r => ArrayRef.cols r) ref report_type
              [ArrayRef.float; ArrayRef.double]
              [ArrayRef.double; ArrayRef.float; ArrayRef.double] tt)
    as [Hsame _].
  - intros s. rewrite !elem_of_cons, !elem_of_nil. tauto.
  - exact Hsame.
Defined.

(** Two pair lists with the same pairs in opposite orders. *)
Lemma try_match2_independent_of_list_order_witness :
  let ref1 := ArrayRef.MkVariant ArrayRef.float [ArrayRef.double]
                (ArrayRef.arrayref (c:=false) ArrayRef.f64 4096 3) in
  let ref2 := ArrayRef.MkVariant ArrayRef.float [ArrayRef.double]
                (ArrayRef.arrayref (c:=true) ArrayRef.f64 8192 5) in
  ArrayRef.try_match2 (fun _ => Z) (fun _ => Z)
    (fun _ r => ArrayRef.cols r) (fun _ r => ArrayRef.cols r) ref1 ref2
    report_types
    [(ArrayRef.float, ArrayRef.float); (ArrayRef.double, ArrayRef.double)] tt
  = ArrayRef.try_match2 (fun _ => Z) (fun _ => Z)
      (fun _ r => ArrayRef.cols r) (fun _ r => ArrayRef.cols r) ref1 ref2
      report_types
      [(ArrayRef.double, ArrayRef.double); (ArrayRef.float, ArrayRef.float)] tt.
Proof.
  intros ref1 ref2.
  apply (try_match2_independent_of_list_order (fun _ => Z) (fun _ => Z)
           (fun _ r => ArrayRef.cols r) (fun _ r => ArrayRef.cols r)
           ref1 ref2 report_types).
  intros p. rewrite !elem_of_cons, !elem_of_nil. tauto.
Defined.

(** A complex<double> array accepted as a complex array and matched. *)
Lemma constructed_view_always_matches_witness :
  let a : ArrayRef.BasicArrayRef false :=
    ArrayRef.arrayref ArrayRef.cf64 4096 8 in
  exists v, ArrayRef.ComplexArrayRef a = Ok v /\
    ArrayRef.match_ (fun _ => Z) (fun _ r => ArrayRef.cols r) v report_type tt
    = Ok ((ArrayRef.complex_double, 8%Z), tt).
Proof.
  intros a. eexists. split; [reflexivity|].
  destruct (constructed_view_always_matches (W:=unit)
              (Result:=ArrayRef.Scalar * Z) ArrayRef.float
              [ArrayRef.double; ArrayRef.complex_float; ArrayRef.complex_double])
    as [Hm _].
  destruct (Hm a _ eq_refl) as [_ Hrun].
  exact (Hrun (fun _ => Z) (fun _ r => ArrayRef.cols r) report_type tt).
Defined.

Lemma well_tagged_f32_complex (c : bool) (data size : Z) :
  well_tagged (ArrayRef.MkVariant (is_const:=c) ArrayRef.float
                 [ArrayRef.double; ArrayRef.complex_float;
                  ArrayRef.complex_double]
                 (ArrayRef.arrayref ArrayRef.f32 data size)).
Proof. unfold well_tagged. cbn. left. Qed.

Lemma well_tagged_cf32_complex (c : bool) (data size : Z) :
  well_tagged (ArrayRef.MkVariant (is_const:=c) ArrayRef.float
                 [ArrayRef.double; ArrayRef.complex_float;
                  ArrayRef.complex_double]
                 (ArrayRef.arrayref ArrayRef.cf32 data size)).
Proof. unfold well_tagged. cbn. right. right. left. Qed.

Lemma well_tagged_f64_complex (c : bool) (data size : Z) :
  well_tagged (ArrayRef.MkVariant (is_const:=c) ArrayRef.float
                 [ArrayRef.double; ArrayRef.complex_float;
                  ArrayRef.complex_double]
                 (ArrayRef.arrayref ArrayRef.f64 data size)).
Proof. unfold well_tagged. cbn. right. left. Qed.

(** A float32 and a complex<float> view of complex arrays. *)
Lemma match2_total_on_well_tagged_views_witness :
  let complex := [ArrayRef.double; ArrayRef.complex_float;
                  ArrayRef.complex_double] in
  let ref1 := ArrayRef.MkVariant ArrayRef.float complex
                (ArrayRef.arrayref (c:=false) ArrayRef.f32 4096 3) in
  let ref2 := ArrayRef.MkVariant ArrayRef.float complex
                (ArrayRef.arrayref (c:=true) ArrayRef.cf32 8192 5) in
  ArrayRef.match2 (fun _ => Z) (fun _ => Z)
    (fun _ r => ArrayRef.cols r) (fun _ r => ArrayRef.cols r) ref1 ref2
    report_types tt
  = Ok ((ArrayRef.float, ArrayRef.complex_float, 3%Z, 5%Z), tt).
Proof.
  intros complex ref1 ref2.
  apply (match2_total_on_well_tagged_views (fun _ => Z) (fun _ => Z)
           (fun _ r => ArrayRef.cols r) (fun _ r => ArrayRef.cols r)
           ref1 ref2 report_types tt).
  - apply well_tagged_f32_complex.
  - apply well_tagged_cf32_complex.
Defined.

Lemma match2sp_result_is_match2_result_witness :
  let complex := [ArrayRef.double; ArrayRef.complex_float;
                  ArrayRef.complex_double] in
  let ref1 := ArrayRef.MkVariant ArrayRef.float complex
                (ArrayRef.arrayref (c:=false) ArrayRef.f32 4096 3) in
  let ref2 := ArrayRef.MkVariant ArrayRef.float complex
                (ArrayRef.arrayref (c:=true) ArrayRef.cf32 8192 5) in
  ArrayRef.match2 (fun _ => Z) (fun _ => Z)
    (fun _ r => ArrayRef.cols r) (fun _ r => ArrayRef.cols r) ref1 ref2
    report_types tt
  = Ok ((ArrayRef.float, ArrayRef.complex_float, 3%Z, 5%Z), tt).
Proof.
  intros complex ref1 ref2.
  apply (match2sp_result_is_match2_result (fun _ => Z) (fun _ => Z)
           (fun _ r => ArrayRef.cols r) (fun _ r => ArrayRef.cols r)
           ref1 ref2 report_types tt).
  reflexivity.
Defined.

(** A float32 against a float64 view: mixed precision. *)
Lemma match2sp_throws_iff_mixed_precision_witness :
  let complex := [ArrayRef.double; ArrayRef.complex_float;
                  ArrayRef.complex_double] in
  let ref1 := ArrayRef.MkVariant ArrayRef.float complex
                (ArrayRef.arrayref (c:=false) ArrayRef.f32 4096 3) in
  let ref2 := ArrayRef.MkVariant ArrayRef.float complex
                (ArrayRef.arrayref (c:=true) ArrayRef.f64 8192 5) in
  ArrayRef.match2sp (fun _ => Z) (fun _ => Z)
    (fun _ r => ArrayRef.cols r) (fun _ r => ArrayRef.cols r) ref1 ref2
    report_types tt
  = Throw "A match was not found".
Proof.
  intros complex ref1 ref2.
  apply (match2sp_throws_iff_mixed_precision (fun _ => Z) (fun _ => Z)
           (fun _ r => ArrayRef.cols r) (fun _ r => ArrayRef.cols r)
           ref1 ref2 report_types tt).
  - apply well_tagged_f32_complex.
  - apply well_tagged_f64_complex.
Defined.

(** The real types are among the complex types. *)
Lemma wider_variant_accepts_more_witness :
  let a : ArrayRef.BasicArrayRef false := ArrayRef.arrayref ArrayRef.f64 4096 8 in
  ArrayRef.ComplexArrayRef a
  = Ok (ArrayRef.MkVariant ArrayRef.float
          [ArrayRef.double; ArrayRef.complex_float; ArrayRef.complex_double] a).
Proof.
  intros a.
  destruct (wider_variant_accepts_more ArrayRef.float ArrayRef.float
              [ArrayRef.double]
              [ArrayRef.double; ArrayRef.complex_float;
               ArrayRef.complex_double]
              a (ArrayRef.arrayref ArrayRef.f64 4096 8)) as [Hwider _].
  - intros s. rewrite !elem_of_cons, !elem_of_nil. tauto.
  - exact (Hwider (ArrayRef.MkVariant ArrayRef.float [ArrayRef.double] a)
                  eq_refl).
Defined.

(** A typed reference to doubles, passed as a real array. *)
Lemma typed_arrayref_dispatches_on_element_type_witness :
  let a : ArrayRef.BasicArrayRef false :=
    ArrayRefTyped.arrayref ArrayRef.double 4096 8 in
  exists v, ArrayRef.RealArrayRef a = Ok v /\
    ArrayRef.match_ (fun _ => Z) (fun _ r => ArrayRef.cols r) v report_type tt
    = Ok ((ArrayRef.double, 8%Z), tt).
Proof.
  intros a. eexists. split; [reflexivity|].
  destruct (typed_arrayref_dispatches_on_element_type (W:=unit)
              (Result:=ArrayRef.Scalar * Z) ArrayRef.double ArrayRef.float
              [ArrayRef.double] 4096 8) as (_ & _ & _ & _ & Hrun).
  exact (Hrun _ eq_refl (fun _ => Z) (fun _ r => ArrayRef.cols r)
              report_type tt).
Defined.

(** The first site of the chain of three sites: one of its two hoppings
    leaves the foundation. *)
Lemma count_neighbors_is_number_of_visited_neighbors_witness :
  let foundation := Foundation.MkFoundation 3 [true; false; true] in
  length (Foundation.count_neighbors chain3 foundation) = 3 /\
  exists visited : nat,
    Foundation.for_each_neighbour chain3 0 (fun _ k => Some (S k)) 0
      = Some visited /\
    visited <= 2 /\
    Foundation.count_neighbors chain3 foundation !! 0
      = Some (Z.of_nat visited).
Proof.
  intros foundation.
  apply (count_neighbors_is_number_of_visited_neighbors chain3 foundation 0).
  - cbn. lia.
  - vm_compute. reflexivity.
Defined.

Lemma remove_dangling_only_removes_sites_witness :
  let foundation := Foundation.MkFoundation 3 [true; false; true] in
  let st := Foundation.MkState [false; false; false] [0; 0; 0]%Z 4 2 2 in
  length (Foundation.is_valid st) = 3 /\
  length (Foundation.neighbor_count st) = 3 /\
  (forall i : nat, Foundation.is_valid st !! i = Some true ->
                   Foundation.get_states foundation !! i = Some true) /\
  count_valid (Foundation.is_valid st) <= 2.
Proof.
  intros foundation st.
  apply (remove_dangling_only_removes_sites chain3 1 3 foundation st).
  vm_compute. reflexivity.
Defined.

Lemma remove_dangling_keeps_foundation_without_invalid_sites_witness :
  let foundation := Foundation.MkFoundation 3 [true; true; true] in
  Foundation.remove_dangling chain3 2 0 foundation
  = Some (Foundation.MkState [true; true; true]
            (Foundation.count_neighbors chain3 foundation) 0 0 0).
Proof.
  intros foundation.
  apply (remove_dangling_keeps_foundation_without_invalid_sites chain3 2 0
           foundation).
  - reflexivity.
  - repeat constructor.
Defined.

(** The call for the middle site of the chain, and a second call. *)
Lemma clear_neighbors_again_returns_at_once_witness :
  let st := Foundation.MkState [true; false; true] [1; 2; 1]%Z 0 0 0 in
  let st' := Foundation.MkState [false; false; false] [0; 0; 0]%Z 3 2 2 in
  Foundation.at_ (Foundation.neighbor_count st') 1 = 0%Z /\
  forall fuel' depth',
    Foundation.clear_neighbors chain3 1 (S fuel') depth' 1 st'
    = Some (Foundation.enter st' depth') /\
    Foundation.is_valid (Foundation.enter st' depth')
    = Foundation.is_valid st' /\
    Foundation.neighbor_count (Foundation.enter st' depth')
    = Foundation.neighbor_count st'.
Proof.
  intros st st'.
  apply (clear_neighbors_again_returns_at_once chain3 1 3 1 1 st st').
  - cbn. lia.
  - vm_compute. reflexivity.
Defined.

(** A shape with the vertices (0, 0, 0) and (3, 2, 0) on a lattice of two
    dimensions. *)
Lemma find_bounds_encloses_every_vertex_witness :
  let vertices := [(0, 0, 0); (3, 2, 0)]%Z in
  let lower := fst (FoundationGeometry.find_bounds _ id vertices 2) in
  let upper := snd (FoundationGeometry.find_bounds _ id vertices 2) in
  (FoundationGeometry.coeff lower 0 + 1 <= 0
   <= FoundationGeometry.coeff upper 0 - 1)%Z /\
  (exists q, q ∈ vertices /\
     (FoundationGeometry.coeff lower 0 + 1 = FoundationGeometry.coeff q 0)%Z) /\
  (exists q, q ∈ vertices /\
     (FoundationGeometry.coeff upper 0 - 1 = FoundationGeometry.coeff q 0)%Z).
Proof.
  intros vertices.
  apply (find_bounds_encloses_every_vertex FoundationGeometry.Array3i id
           vertices 2 (0, 0, 0)%Z 0).
  - left.
  - lia.
  - intros q Hq. unfold vertices in Hq.
    rewrite !elem_of_cons, elem_of_nil in Hq.
    destruct Hq as [->|[->|[]]]; vm_compute; split; reflexivity.
Defined.


Lemma primitive_bounds_span_the_size_witness :
  FoundationGeometry.size_of_bounds
    (FoundationGeometry.primitive_bounds (2, 3, 1)%Z) = (2, 3, 1)%Z /\
  forall d : nat,
    (FoundationGeometry.coeff
       (fst (FoundationGeometry.primitive_bounds (2, 3, 1)%Z)) d <= 0
     <= FoundationGeometry.coeff
          (snd (FoundationGeometry.primitive_bounds (2, 3, 1)%Z)) d)%Z.
Proof.
  apply (primitive_bounds_span_the_size (2, 3, 1)%Z).
  intros [|[|d]]; vm_compute; split; discriminate.
Defined.

(** Two sublattices on a primitive of two cells. *)
Lemma generate_positions_fills_every_slot_witness :
  exists positions : list FoundationGeometry.Array3i,
    FoundationGeometry.generate_positions _ grid_add grid_scaled
      grid_sub_position grid_vector (0, 0, 0)%Z (2, 1, 1)%Z 2
      = Some (Some <$> positions) /\
    Z.of_nat (length positions)
      = FoundationGeometry.num_sites_of (2, 1, 1)%Z 2 /\
    forall s c b a : Z,
      (0 <= s < 2)%Z -> (0 <= c < 1)%Z -> (0 <= b < 1)%Z -> (0 <= a < 2)%Z ->
      positions !! Z.to_nat (((s * 1 + c) * 1 + b) * 2 + a)
      = Some (position_of grid_add grid_scaled grid_sub_position grid_vector
                (0, 0, 0)%Z s c b a).
Proof.
  apply (generate_positions_fills_every_slot FoundationGeometry.Array3i
           grid_add grid_scaled grid_sub_position grid_vector
           (0, 0, 0)%Z (2, 1, 1)%Z 2).
  - intros [|[|d]]; vm_compute; discriminate.
  - lia.
  - vm_compute. discriminate.
Defined.

Lemma primitive_foundation_is_well_formed_witness :
  exists built,
    FoundationGeometry.Foundation_of_primitive _ grid_add grid_scaled
      grid_sub_position grid_vector id 2 (2, 1, 1)%Z = Some built /\
    FoundationGeometry.num_sites built = 4%Z /\
    Foundation.HamiltonianIndices_of (FoundationGeometry.as_foundation built)
    = Foundation.MkIndices [0; 1; 2; 3]%Z 4.
Proof.
  destruct (primitive_foundation_is_well_formed FoundationGeometry.Array3i
              grid_add grid_scaled grid_sub_position grid_vector id
              2 (2, 1, 1)%Z)
    as (built & Hbuilt & _ & _ & _ & _ & _ & Hindices).
  - intros [|[|d]]; vm_compute; split; discriminate.
  - lia.
  - vm_compute. discriminate.
  - exists built. split; [exact Hbuilt|].
    vm_compute in Hbuilt. inversion Hbuilt; subst built.
    split; [reflexivity|]. exact Hindices.
Defined.

(** A segment of two vertices on a one-dimensional lattice without
    hoppings, with a shape that contains every position. *)
Lemma shape_foundation_is_well_formed_witness :
  exists built,
    FoundationGeometry.Foundation_of_shape _ id _ grid_add grid_scaled
      grid_sub_position grid_vector id (fun ps => (fun _ => true) <$> ps)
      (fun _ => []) 4 1 1 1 [(0, 0, 0); (1, 0, 0)]%Z = Some built /\
    FoundationGeometry.size built = (4, 1, 1)%Z /\
    length (FoundationGeometry.built_states built)
    = length (FoundationGeometry.positions built).
Proof.
  destruct (shape_foundation_is_well_formed FoundationGeometry.Array3i id
              FoundationGeometry.Array3i grid_add grid_scaled
              grid_sub_position grid_vector id
              (fun ps => (fun _ => true) <$> ps) (fun _ => [])
              4 1 1 1 [(0, 0, 0); (1, 0, 0)]%Z)
    as (built & Hbuilt & _ & Hsize & _ & _ & Hlen & _).
  - intros [|[|d]]; vm_compute; discriminate.
  - lia.
  - vm_compute. discriminate.
  - intros ps. apply length_fmap.
  - intros idx j Hj. apply elem_of_nil in Hj. contradiction.
  - vm_compute. lia.
  - exists built. split; [exact Hbuilt|]. split; [exact Hsize|exact Hlen].
Defined.

Lemma hamiltonian_indices_without_valid_sites_witness :
  Foundation.HamiltonianIndices_of (Foundation.MkFoundation 3 [false; false; false])
  = Foundation.MkIndices [-1; -1; -1]%Z 0.
Proof.
  apply (hamiltonian_indices_without_valid_sites
           (Foundation.MkFoundation 3 [false; false; false])).
  - reflexivity.
  - vm_compute. discriminate.
  - repeat constructor.
Defined.
